(** * Swing / ring allreduce schedule simulators

    A shallow embedding of the schedule-simulation core of the repository:
    - [swing_heatmap.py]: the Swing partner selection ([rho], [pi],
      [swing_steps]) and the communication volume matrix ([accumulate_step],
      [build_matrix]);
    - [torus_round_tables.py]: the ring reduce-scatter and allgather
      simulations ([simulate_reduce_scatter], [simulate_allgather]).

    Python integers are unbounded and are modelled by [Z]; Python's [%] is the
    floor modulo (sign of the divisor), which is [Z.modulo].  Dictionaries are
    finite maps ([gmap]), sets of ranks are [gset Z].  Exceptions are modelled
    by an error monad.  Plotting is left out: where the source hands the rows
    of a round to matplotlib, the model appends them to a log. *)

From Stdlib Require Import ZArith QArith Qfield Lia.
From stdpp Require Import base numbers list gmap strings sorting pretty.

Local Open Scope Z_scope.

(** ** The fragment of the Python runtime the simulators rely on *)

Module Py.

(** The exceptions that the modelled statements can raise.
    [InvalidReference] is not a Python exception: it is what the model
    answers when an object arena is asked for a reference it never handed
    out, which no Python program can do. *)
Inductive exn : Set :=
| KeyError
| IndexError
| ValueError
| ZeroDivisionError
| InvalidReference.

Inductive result (A : Type) : Type :=
| Ok (a : A)
| Raise (e : exn).
Arguments Ok {A} a.
Arguments Raise {A} e.

#[export] Instance result_ret : MRet result := λ A, Ok.
#[export] Instance result_bind : MBind result :=
  λ A B f m, match m with Ok a => f a | Raise e => Raise e end.

(** [for x in xs: body] over a loop state [S]; an exception leaves the
    loop at once. *)
Fixpoint for_each {A S : Type} (body : A → S → result S) (xs : list A) (st : S)
  : result S :=
  match xs with
  | [] => Ok st
  | x :: xs' => st' ← body x st; for_each body xs' st'
  end.

(** [range(n)]: 0, 1, ..., n-1 (empty when [n <= 0]). *)
Definition range (n : Z) : list Z := seqZ 0 n.


(** [a % b] on integers. *)
Definition mod_ (a b : Z) : result Z :=
  if b =? 0 then Raise ZeroDivisionError else Ok (a mod b).

(** [a // b] on integers. *)
Definition floordiv (a b : Z) : result Z :=
  if b =? 0 then Raise ZeroDivisionError else Ok (a / b).

(** [d[k]] on a dictionary. *)
Definition getitem `{Countable K} {V : Type} (d : gmap K V) (k : K) : result V :=
  match d !! k with
  | Some v => Ok v
  | None => Raise KeyError
  end.

End Py.
Import Py.

(** ** swing_heatmap.py *)

Module SwingHeatmap.

(** [rho(step)]: the loop adds [1 << i] for even [i] and subtracts it for
    odd [i], for [i] in [range(step + 1)]. *)
Definition rho (step : Z) : Z :=
  fold_left
    (λ total i, total + (if i mod 2 =? 0 then Z.shiftl 1 i else - Z.shiftl 1 i))
    (range (step + 1)) 0.

(** [pi(rank, step, world_size)]. *)
Definition pi (rank step world_size : Z) : result Z :=
  let offset := rho step in
  if rank mod 2 =? 0 then mod_ (rank + offset) world_size
  else mod_ (rank - offset) world_size.



(** The numpy array of [build_matrix]: [world_size] rows of [world_size]
    cells.  The cells are doubles in the source; the model computes with
    exact rationals (no rounding, no overflow). *)
Abbreviation matrix := (list (list Q)).


(** numpy index normalisation along an axis of length [len]: indices in
    [-len, 0) count from the end, anything outside [-len, len) is an
    [IndexError]. *)
Definition np_index (len : nat) (i : Z) : result nat :=
  if (0 <=? i) && (i <? Z.of_nat len) then Ok (Z.to_nat i)
  else if (- Z.of_nat len <=? i) && (i <? 0) then Ok (Z.to_nat (i + Z.of_nat len))
  else Raise IndexError.

(** [matrix[i, j] += v]. *)
Definition matrix_iadd (m : matrix) (i j : Z) (v : Q) : result matrix :=
  i' ← np_index (length m) i;
  match m !! i' with
  | None => Raise IndexError
  | Some row =>
      j' ← np_index (length row) j;
      match row !! j' with
      | None => Raise IndexError
      | Some x => Ok (<[i' := <[j' := (x + v)%Q]> row]> m)
      end
  end.

(** [accumulate_step(matrix, world_size, step, bytes_per_send)]; the array
    is updated in place, the model returns the updated array. *)
Definition accumulate_step (m : matrix) (world_size step : Z) (bytes_per_send : Q)
  : result matrix :=
  for_each
    (λ rank m, peer ← pi rank step world_size;
               matrix_iadd m rank peer bytes_per_send)
    (range world_size) m.



End SwingHeatmap.

(** ** torus_round_tables.py *)

Module TorusRoundTables.

(** A chunk dictionary [{"idx": i, "contributors": {...}}]. *)
Record chunk : Type := Chunk { idx : Z; contributors : gset Z }.

(** Chunk dictionaries are mutable objects that the ledgers and the
    transmissions refer to.  They live in an arena; a reference is a
    position in it.  Allocation appends, so references already handed out
    stay valid. *)
Abbreviation ref := nat.
Abbreviation heap := (list chunk).

Definition alloc (h : heap) (c : chunk) : heap * ref := (h ++ [c], length h).

(** Reading through a reference. *)
Definition deref (h : heap) (l : ref) : result chunk :=
  match h !! l with
  | Some c => Ok c
  | None => Raise InvalidReference
  end.

(** [copy.deepcopy(chunk)]: a new object with an equal index and an equal,
    unshared contributor set. *)
Definition deepcopy (h : heap) (l : ref) : result (heap * ref) :=
  c ← deref h l; Ok (alloc h c).

(** [chunk["contributors"].add(r)], in place. *)
Definition add_contributor (h : heap) (l : ref) (r : Z) : result heap :=
  c ← deref h l;
  Ok (<[l := Chunk (idx c) ({[r]} ∪ contributors c)]> h).

(** A ledger [holdings[r]] maps chunk indices to chunk objects. *)
Abbreviation ledger := (gmap Z ref).

(** [format_chunk(chunk)]: the index and the sorted contributors (the
    source prints them as text). *)
Abbreviation label := (Z * list Z)%type.
Definition format_chunk (c : chunk) : label :=
  (idx c, merge_sort Z.le (elements (contributors c))).

(** [summarize_holdings(holdings)]: the labels of the held chunks, by
    increasing chunk index. *)
Definition summarize_holdings (h : heap) (ldg : ledger) : result (list label) :=
  for_each
    (λ i out, l ← getitem ldg i; c ← deref h l; Ok (out ++ [format_chunk c]))
    (merge_sort Z.le (fst <$> map_to_list ldg)) [].

(** An entry of [transmissions]. *)
Record transmission : Type :=
  Transmission { sender : Z; chunk_idx : Z; chunk_ref : ref }.

(** A row as the first loop of a round appends it ... *)
Record send_row : Type :=
  SendRow { process : Z; send_to : Z; recv_from : Z;
            send_chunk : Z; send_label : label; bytes_sent : Z }.

(** ... and as the second loop completes it with [row.update]. *)
Record row : Type :=
  Row { sent : send_row; recv_chunk : Z; recv_label : label;
        bytes_recv : Z; data_held : list label }.

(** The state of a simulation between two rounds: the chunk objects, the
    ledgers, the [last_received] dictionary and the rows handed to
    [render_step] so far, with their step. *)
Record state : Type :=
  State { st_heap : heap;
          holdings : gmap Z ledger;
          last_received : gmap Z Z;
          rendered : list (Z * list row) }.

(** *** Reduce-scatter *)

(** [holdings = {r: {r: {"idx": r, "contributors": {r}}} for r in range(num_procs)}] *)
Definition initial_holdings (num_procs : Z) : heap * gmap Z ledger :=
  fold_left
    (λ '(h, H) r, let '(h', l) := alloc h (Chunk r {[r]}) in
                  (h', <[r := {[r := l]}]> H))
    (range num_procs) ([], ∅).

(** [last_received = {r: r for r in range(num_procs)}] *)
Definition initial_last_received (num_procs : Z) : gmap Z Z :=
  fold_left (λ LR r, <[r := r]> LR) (range num_procs) ∅.

(** Body of the first loop of a reduce-scatter round: the sender pops the
    chunk from its ledger and posts it, by reference, for its successor. *)
Definition rs_send (num_procs step chunk_bytes : Z) (h : heap) (r : Z)
    (acc : gmap Z ledger * gmap Z transmission * list send_row)
  : result (gmap Z ledger * gmap Z transmission * list send_row) :=
  let '(H, T, rows) := acc in
  to ← mod_ (r + 1) num_procs;
  from ← mod_ (r - 1 + num_procs) num_procs;
  send_idx ← mod_ (r - step) num_procs;
  ldg ← getitem H r;
  l ← getitem ldg send_idx;
  let H' := <[r := delete send_idx ldg]> H in
  let T' := <[to := Transmission r send_idx l]> T in
  c ← deref h l;
  Ok (H', T', rows ++ [SendRow r to from send_idx (format_chunk c) chunk_bytes]).

(** Body of the second loop: the receiver adds itself to the incoming
    chunk object and stores it under the received index. *)
Definition rs_recv (num_procs step chunk_bytes : Z) (T : gmap Z transmission)
    (rw : send_row) (acc : heap * gmap Z ledger * gmap Z Z * list row)
  : result (heap * gmap Z ledger * gmap Z Z * list row) :=
  let '(h, H, LR, rows) := acc in
  let r := process rw in
  recv_idx ← mod_ (r - step - 1) num_procs;
  incoming ← getitem T r;
  let l := chunk_ref incoming in
  h' ← add_contributor h l r;
  ldg ← getitem H r;
  let ldg' := <[recv_idx := l]> ldg in
  let H' := <[r := ldg']> H in
  let LR' := <[r := recv_idx]> LR in
  c ← deref h' l;
  held ← summarize_holdings h' ldg';
  Ok (h', H', LR', rows ++ [Row rw recv_idx (format_chunk c) chunk_bytes held]).

(** One iteration of [for step in range(num_procs - 1)]. *)
Definition rs_round (num_procs chunk_bytes : Z) (step : Z) (st : state)
  : result state :=
  '(H, T, rows) ← for_each (rs_send num_procs step chunk_bytes (st_heap st))
                    (range num_procs) (holdings st, ∅, []);
  '(h, H, LR, rows) ← for_each (rs_recv num_procs step chunk_bytes T)
                        rows (st_heap st, H, last_received st, []);
  Ok (State h H LR (rendered st ++ [(step, rows)])).

(** The function up to its loop over [steps]; the source runs it with
    [steps = range(num_procs - 1)]. *)
Definition reduce_scatter_steps (num_procs vector_size : Z) (steps : list Z)
  : result state :=
  chunk_bytes ← floordiv vector_size num_procs;
  let '(h, H) := initial_holdings num_procs in
  let LR := initial_last_received num_procs in
  for_each (rs_round num_procs chunk_bytes) steps (State h H LR []).

(** [simulate_reduce_scatter(num_procs, vector_size, output_dir)].  The
    source returns [(holdings, last_received)]; the model returns them
    inside the final state, together with the chunk objects they refer
    to. *)
Definition simulate_reduce_scatter (num_procs vector_size : Z) : result state :=
  reduce_scatter_steps num_procs vector_size (range (num_procs - 1)).

(** *** Allgather *)

(** [{idx: copy.deepcopy(chunk) for idx, chunk in chunks.items()}].  The
    order in which the items are visited only decides which fresh
    reference each copy gets. *)
Definition copy_ledger (ldg : ledger) (h : heap) : result (heap * ledger) :=
  for_each
    (λ '(i, l) '(h, out), '(h', l') ← deepcopy h l; Ok (h', <[i := l']> out))
    (map_to_list ldg) (h, ∅).

(** [{r: {...} for r, chunks in initial_holdings.items()}] *)
Definition copy_holdings (H0 : gmap Z ledger) (h : heap)
  : result (heap * gmap Z ledger) :=
  for_each
    (λ '(r, ldg) '(h, out), '(h', ldg') ← copy_ledger ldg h;
                            Ok (h', <[r := ldg']> out))
    (map_to_list H0) (h, ∅).

(** Body of the first loop of an allgather round: the sender posts a deep
    copy of the chunk at [last_received[r]]; its ledger keeps the chunk. *)
Definition ag_send (num_procs chunk_bytes : Z) (H : gmap Z ledger)
    (LR : gmap Z Z) (r : Z)
    (acc : heap * gmap Z transmission * list send_row)
  : result (heap * gmap Z transmission * list send_row) :=
  let '(h, T, rows) := acc in
  to ← mod_ (r + 1) num_procs;
  from ← mod_ (r - 1 + num_procs) num_procs;
  send_idx ← getitem LR r;
  ldg ← getitem H r;
  l ← getitem ldg send_idx;
  '(h', l') ← deepcopy h l;
  let T' := <[to := Transmission r send_idx l']> T in
  c ← deref h' l;
  Ok (h', T', rows ++ [SendRow r to from send_idx (format_chunk c) chunk_bytes]).

(** Body of the second loop: the received chunk is stored only when its
    index is not in the ledger yet; [last_received[r]] is overwritten. *)
Definition ag_recv (chunk_bytes : Z) (h : heap) (T : gmap Z transmission)
    (rw : send_row) (acc : gmap Z ledger * gmap Z Z * list row)
  : result (gmap Z ledger * gmap Z Z * list row) :=
  let '(H, LR, rows) := acc in
  let r := process rw in
  incoming ← getitem T r;
  let recv_chunk := chunk_ref incoming in
  let recv_idx := chunk_idx incoming in
  ldg ← getitem H r;
  let ldg' := match ldg !! recv_idx with
              | None => <[recv_idx := recv_chunk]> ldg
              | Some _ => ldg
              end in
  let H' := <[r := ldg']> H in
  let LR' := <[r := recv_idx]> LR in
  c ← deref h recv_chunk;
  held ← summarize_holdings h ldg';
  Ok (H', LR', rows ++ [Row rw recv_idx (format_chunk c) chunk_bytes held]).

(** One iteration of [for step in range(num_procs - 1)]. *)
Definition ag_round (num_procs chunk_bytes : Z) (step : Z) (st : state)
  : result state :=
  '(h, T, rows) ← for_each
                    (ag_send num_procs chunk_bytes (holdings st) (last_received st))
                    (range num_procs) (st_heap st, ∅, []);
  '(H, LR, rows) ← for_each (ag_recv chunk_bytes h T)
                     rows (holdings st, last_received st, []);
  Ok (State h H LR (rendered st ++ [(step, rows)])).

(** The function up to its loop over [steps].  [h] holds the chunk objects
    that [initial_holdings] refers to.  [holdings] is a fresh dictionary of
    fresh chunk objects; [last_received] is the caller's dictionary itself:
    the assignments of the second loop write into it. *)
Definition allgather_steps (num_procs vector_size : Z) (h : heap)
    (initial_holdings : gmap Z ledger) (last_received : gmap Z Z)
    (steps : list Z) : result state :=
  chunk_bytes ← floordiv vector_size num_procs;
  '(h', H) ← copy_holdings initial_holdings h;
  for_each (ag_round num_procs chunk_bytes) steps (State h' H last_received []).

(** [simulate_allgather(num_procs, vector_size, output_dir,
    initial_holdings, last_received)].  The source returns nothing; the
    model returns the state the call ends in: the chunk objects (the
    caller's among them), the local [holdings], and the [last_received]
    dictionary as the caller finds it afterwards. *)
Definition simulate_allgather (num_procs vector_size : Z) (h : heap)
    (initial_holdings : gmap Z ledger) (last_received : gmap Z Z)
  : result state :=
  allgather_steps num_procs vector_size h initial_holdings last_received
    (range (num_procs - 1)).

(** [main()] after argument parsing: both phases in sequence. *)
Definition main (processes vector_size : Z) : result state :=
  st ← simulate_reduce_scatter processes vector_size;
  simulate_allgather processes vector_size
    (st_heap st) (holdings st) (last_received st).

(** *** Byte counts as text *)





End TorusRoundTables.

(** ** Specification-side definitions *)

Import SwingHeatmap TorusRoundTables.

(** The offset of the Swing algorithm as the specification writes it: the
    sum of the powers [(-2)^i] for [i] from [0] to [s]. *)
Fixpoint alternating_sum (s : nat) : Z :=
  match s with
  | O => 1
  | S k => alternating_sum k + (-2) ^ Z.of_nat (S k)
  end.

(** A square array with [n] rows and [n] columns. *)
Definition shape (m : matrix) (n : nat) : Prop :=
  length m = n ∧ ∀ i row, m !! i = Some row → length row = n.

(** The cell [m[a, b]] (zero outside the array). *)
Definition cell (m : matrix) (a b : nat) : Q :=
  default 0%Q (row ← m !! a; row !! b).

(** The sum of the cells of a row, and of row [a] of an array. *)
Definition sum_cells (row : list Q) : Q := foldr Qplus 0%Q row.
Definition row_sum (m : matrix) (a : nat) : Q :=
  sum_cells (default [] (m !! a)).



(** The full rank set [{0, ..., n-1}]. *)
Definition full_set (n : Z) : gset Z := list_to_set (range n).

(** The ranks [i, i+1, ..., i+k] around the ring of [n] processes. *)
Definition span (n i k : Z) : gset Z :=
  list_to_set ((λ j, (i + j) mod n) <$> range (k + 1)).

(** The chunk that process [r] holds at index [last_received[r]]. *)
Definition last_received_chunk (st : state) (r : Z) : option chunk :=
  i ← last_received st !! r;
  ldg ← holdings st !! r;
  l ← ldg !! i;
  st_heap st !! l.

(** Process [r] holds, under chunk index [i], the chunk object [l], whose
    value is [c]. *)
Definition holds (st : state) (r i : Z) (l : ref) (c : chunk) : Prop :=
  ∃ ldg, holdings st !! r = Some ldg ∧ ldg !! i = Some l ∧ st_heap st !! l = Some c.

(** Every chunk object of [h] is still in [h'], with its index and at least
    its contributors. *)
Definition grows (h h' : heap) : Prop :=
  ∀ l c, h !! l = Some c →
    ∃ c', h' !! l = Some c' ∧ idx c' = idx c ∧ contributors c ⊆ contributors c'.

(** The state of the reduce-scatter simulation of [n] processes after [k]
    rounds: chunk [i] is object [i], has gathered the contributions of
    [i, ..., i+k], and sits alone in the ledger of process [i+k]. *)
Definition rs_inv (n k : Z) (st : state) : Prop :=
  length (st_heap st) = Z.to_nat n
  ∧ (∀ i, 0 ≤ i < n → st_heap st !! Z.to_nat i = Some (Chunk i (span n i k)))
  ∧ (∀ r, 0 ≤ r < n →
       holdings st !! r = Some {[ (r - k) mod n := Z.to_nat ((r - k) mod n) ]})
  ∧ (∀ r, is_Some (holdings st !! r) → 0 ≤ r < n)
  ∧ (∀ r, 0 ≤ r < n → last_received st !! r = Some ((r - k) mod n)).

(** The state of the allgather simulation after [k] rounds: process [r]
    holds the chunks [r+1, r, ..., r+1-k], each a fully reduced object, and
    received chunk [r+1-k] last. *)
Definition ag_inv (n k : Z) (st : state) : Prop :=
  (∀ r, 0 ≤ r < n →
     ∃ ldg, holdings st !! r = Some ldg
       ∧ ∀ i, is_Some (ldg !! i) ↔ ∃ j, 0 ≤ j ≤ k ∧ i = (r + 1 - j) mod n)
  ∧ (∀ r ldg i l, holdings st !! r = Some ldg → ldg !! i = Some l →
       st_heap st !! l = Some (Chunk i (full_set n)))
  ∧ (∀ r, is_Some (holdings st !! r) → 0 ≤ r < n)
  ∧ (∀ r, 0 ≤ r < n → last_received st !! r = Some ((r + 1 - k) mod n)).

(** [ldg'] is a deep copy, in [h'], of the ledger [ldg] of [h]. *)
Definition copy_of (h h' : heap) (ldg ldg' : ledger) : Prop :=
  (∀ i, is_Some (ldg' !! i) ↔ is_Some (ldg !! i))
  ∧ (∀ i l', ldg' !! i = Some l' →
       ∃ l c, ldg !! i = Some l ∧ h !! l = Some c ∧ h' !! l' = Some c
              ∧ (length h ≤ l')%nat).



(** What a completed row of a ring round says about process [r]: it sends
    chunk [sc] to its successor, receives chunk [rc] from its predecessor,
    [cb] bytes each way. *)
Definition ring_record (n cb r sc rc : Z) (rw : row) : Prop :=
  process (sent rw) = r
  ∧ send_to (sent rw) = (r + 1) mod n
  ∧ recv_from (sent rw) = (r - 1) mod n
  ∧ send_chunk (sent rw) = sc
  ∧ bytes_sent (sent rw) = cb
  ∧ recv_chunk rw = rc
  ∧ bytes_recv rw = cb.

(** The table rendered for a round: its step and one row per process. *)
Definition round_table (n cb : Z) (sc rc : Z → Z → Z) (k : Z)
    (entry : Z * list row) : Prop :=
  entry.1 = k
  ∧ Forall2 (λ r rw, ring_record n cb r (sc k r) (rc k r) rw) (range n) entry.2.

(** The chunk objects of the ledgers [H] are objects number [lo] to
    [hi - 1] of the arena, and no two ledger entries, of one process or of
    two, refer to the same object. *)
Definition unshared (lo hi : nat) (H : gmap Z ledger) : Prop :=
  (∀ r ldg i l, H !! r = Some ldg → ldg !! i = Some l → (lo ≤ l < hi)%nat)
  ∧ (∀ r1 ldg1 i1 r2 ldg2 i2 l,
       H !! r1 = Some ldg1 → ldg1 !! i1 = Some l →
       H !! r2 = Some ldg2 → ldg2 !! i2 = Some l →
       r1 = r2 ∧ i1 = i2).

(** The label columns of the row of process [r] at step [k] of
    reduce-scatter: the chunk sent as it was before the round, the chunk
    received with the receiver added, and the holdings, which are that one
    chunk. *)
Definition rs_labels (n k r : Z) (rw : row) : Prop :=
  send_label (sent rw)
  = format_chunk (Chunk ((r - k) mod n) (span n ((r - k) mod n) k))
  ∧ recv_label rw
    = format_chunk (Chunk ((r - (k + 1)) mod n) (span n ((r - (k + 1)) mod n) (k + 1)))
  ∧ data_held rw = [recv_label rw].

(** The label columns of the row of process [r] at step [k] of allgather:
    fully reduced chunks throughout, and as holdings the chunks
    [r + 1, r, ..., r - k], once each, by increasing index. *)
Definition ag_labels (n k r : Z) (rw : row) : Prop :=
  send_label (sent rw) = format_chunk (Chunk ((r + 1 - k) mod n) (full_set n))
  ∧ recv_label rw = format_chunk (Chunk ((r - k) mod n) (full_set n))
  ∧ ∃ keys, StronglySorted Z.le keys ∧ NoDup keys
      ∧ (∀ i, i ∈ keys ↔ ∃ j, 0 ≤ j ≤ k + 1 ∧ i = (r + 1 - j) mod n)
      ∧ data_held rw = (λ i, format_chunk (Chunk i (full_set n))) <$> keys.

(** ** Loops *)

Lemma for_each_app {A St : Type} (body : A → St → result St) xs ys st :
  for_each body (xs ++ ys) st = (st' ← for_each body xs st; for_each body ys st').
Proof.
  revert st. induction xs as [|x xs IH]; intros st; simpl; [done|].
  destruct (body x st) as [s1|e]; simpl; [apply IH | done].
Qed.

(** The loop rule: an invariant indexed by the number of completed
    iterations, established by every iteration, holds when the loop ends,
    and the loop does end normally. *)
Lemma for_each_inv {A St : Type} (body : A → St → result St)
    (P : nat → St → Prop) xs st :
  P 0%nat st →
  (∀ i x s, xs !! i = Some x → P i s → ∃ s', body x s = Ok s' ∧ P (S i) s') →
  ∃ st', for_each body xs st = Ok st' ∧ P (length xs) st'.
Proof.
  revert P st. induction xs as [|x xs IH]; intros P st H0 Hstep; simpl.
  - by exists st.
  - destruct (Hstep 0%nat x st eq_refl H0) as (s1 & -> & H1). simpl.
    apply (IH (λ i, P (S i))); [done|].
    intros i y s Hy Hs. by apply (Hstep (S i)).
Qed.

(** A preorder that every iteration respects relates the state before the
    loop to the state after it. *)
Lemma for_each_rel {A St : Type} (body : A → St → result St)
    (R : St → St → Prop) xs :
  (∀ s, R s s) → (∀ s1 s2 s3, R s1 s2 → R s2 s3 → R s1 s3) →
  (∀ x s s', x ∈ xs → body x s = Ok s' → R s s') →
  ∀ st st', for_each body xs st = Ok st' → R st st'.
Proof.
  intros Hrefl Htrans. induction xs as [|x xs IH]; intros Hstep st st'; simpl.
  - intros [= ->]. apply Hrefl.
  - destruct (body x st) as [s1|e] eqn:Hb; simpl; [|done].
    intros Hrest. apply (Htrans _ s1).
    + apply (Hstep x); [left | done].
    + apply IH; [|done]. intros y s s' Hy. apply Hstep. by right.
Qed.

Lemma range_succ n : 0 ≤ n → range (n + 1) = range n ++ [n].
Proof.
  intros Hn. unfold range.
  rewrite seqZ_app by lia. f_equal.
Qed.

Lemma range_lookup n (i : nat) x : range n !! i = Some x → x = Z.of_nat i ∧ Z.of_nat i < n.
Proof. unfold range. rewrite lookup_seqZ. lia. Qed.

Lemma range_length n : length (range n) = Z.to_nat n.
Proof. apply length_seqZ. Qed.

Lemma elem_of_range n x : x ∈ range n ↔ 0 ≤ x < n.
Proof. unfold range. rewrite elem_of_seqZ. lia. Qed.

(** ** The Swing offset [rho] *)

Lemma signed_power_of_two i :
  0 ≤ i → (if i mod 2 =? 0 then Z.shiftl 1 i else - Z.shiftl 1 i) = (-2) ^ i.
Proof.
  intros Hi. rewrite Z.shiftl_1_l. change (-2) with (Z.opp 2).
  destruct (Z.eqb_spec (i mod 2) 0) as [Heven|Hodd].
  - symmetry. apply Z.pow_opp_even.
    exists (i / 2). pose proof (Z.div_mod i 2). lia.
  - rewrite <- Z.pow_opp_odd; [done|].
    exists (i / 2). pose proof (Z.div_mod i 2).
    pose proof (Z.mod_pos_bound i 2). lia.
Qed.

Lemma rho_alternating_sum (k : nat) : rho (Z.of_nat k) = alternating_sum k.
Proof.
  unfold rho. induction k as [|k IH].
  - reflexivity.
  - replace (Z.of_nat (S k) + 1) with ((Z.of_nat k + 1) + 1) by lia.
    rewrite range_succ by lia. rewrite fold_left_app, IH. simpl fold_left.
    rewrite signed_power_of_two by lia.
    simpl alternating_sum. do 2 f_equal. lia.
Qed.

Lemma alternating_sum_closed (k : nat) :
  3 * alternating_sum k = 1 - (-2) ^ (Z.of_nat k + 1).
Proof.
  induction k as [|k IH]; [reflexivity|].
  simpl alternating_sum.
  replace (Z.of_nat (S k) + 1) with (Z.succ (Z.of_nat (S k))) by lia.
  rewrite Z.pow_succ_r by lia.
  replace (Z.of_nat (S k)) with (Z.of_nat k + 1) in * by lia. lia.
Qed.

(** C4: for every round [s >= 0], [rho s] is the sum of [(-2)^i] for [i]
    from [0] to [s] (adding [2^i] for even [i], subtracting it for odd [i]),
    which has the closed form [(1 - (-2)^(s+1)) / 3]; and [rho 0 = 1],
    [rho 1 = -1], [rho 2 = 3], [rho 3 = -5]. *)
Theorem rho_is_alternating_sum (s : Z) :
  0 ≤ s →
  rho s = alternating_sum (Z.to_nat s)
  ∧ 3 * rho s = 1 - (-2) ^ (s + 1)
  ∧ rho 0 = 1 ∧ rho 1 = -1 ∧ rho 2 = 3 ∧ rho 3 = -5.
Proof.
  intros Hs.
  assert (rho s = alternating_sum (Z.to_nat s)) as Hrho.
  { rewrite <- (Z2Nat.id s) at 1 by done. apply rho_alternating_sum. }
  split; [done|]. split; [|by repeat split].
  rewrite Hrho, alternating_sum_closed. by rewrite Z2Nat.id.
Qed.

Lemma rho_is_alternating_sum_witness :
  0 ≤ 5
  ∧ rho 5 = alternating_sum 5
  ∧ 3 * rho 5 = 1 - (-2) ^ (5 + 1).
Proof.
  split; [lia|].
  destruct (rho_is_alternating_sum 5 ltac:(lia)) as (H1 & H2 & _).
  split; [exact H1 | exact H2].
Defined.

(** ** The partner function [pi] *)

(** C3: for [world_size >= 1] and a rank in [[0, world_size)], [pi] returns
    [(rank + rho round) mod world_size] for an even rank and
    [(rank - rho round) mod world_size] for an odd one; the result lies in
    [[0, world_size)] and differs from the unreduced value by a multiple of
    [world_size], whatever the sign of that value.  For [world_size = 16]
    and round [0], the partner of rank 0 is 1 and the partner of rank 1
    is 0. *)
Theorem pi_is_normalized_offset (rank round world_size : Z) :
  1 ≤ world_size → 0 ≤ rank < world_size →
  let target := if Z.even rank then rank + rho round else rank - rho round in
  ∃ peer, pi rank round world_size = Ok peer
    ∧ peer = target mod world_size
    ∧ 0 ≤ peer < world_size
    ∧ (∃ q, target = q * world_size + peer)
    ∧ pi 0 0 16 = Ok 1 ∧ pi 1 0 16 = Ok 0.
Proof.
  intros Hws Hrank target. exists (target mod world_size).
  split; [|split; [done|split; [|split; [|done]]]].
  - unfold pi, mod_, target.
    destruct (Z.eqb_spec world_size 0) as [?|_]; [lia|].
    rewrite Zmod_even. destruct (Z.even rank); reflexivity.
  - apply Z.mod_pos_bound. lia.
  - exists (target / world_size).
    pose proof (Z.div_mod target world_size). lia.
Qed.

Lemma pi_is_normalized_offset_witness :
  ∃ peer, pi 1 2 16 = Ok peer ∧ peer = (1 - rho 2) mod 16 ∧ 0 ≤ peer < 16.
Proof.
  destruct (pi_is_normalized_offset 1 2 16 ltac:(lia) ltac:(lia))
    as (peer & H1 & H2 & H3 & _).
  exists peer. split; [exact H1|]. split; [exact H2 | exact H3].
Defined.

(** ** The number of steps [swing_steps] *)







(** ** The volume matrix *)

Lemma pi_in_range rank step ws :
  1 ≤ ws → ∃ p, pi rank step ws = Ok p ∧ 0 ≤ p < ws.
Proof.
  intros Hws. unfold pi, mod_.
  destruct (Z.eqb_spec ws 0) as [?|_]; [lia|].
  destruct (rank mod 2 =? 0); eexists; (split; [done|]);
    apply Z.mod_pos_bound; lia.
Qed.

Lemma np_index_in_range (len i : nat) :
  (i < len)%nat → np_index len (Z.of_nat i) = Ok i.
Proof.
  intros Hi. unfold np_index.
  destruct (Z.leb_spec 0 (Z.of_nat i)); [|lia].
  destruct (Z.ltb_spec (Z.of_nat i) (Z.of_nat len)); [|lia].
  simpl. by rewrite Nat2Z.id.
Qed.

Lemma sum_cells_insert (row : list Q) (b : nat) (x v : Q) :
  row !! b = Some x → (sum_cells (<[b := (x + v)%Q]> row) == sum_cells row + v)%Q.
Proof.
  revert b. induction row as [|y row IH]; intros b Hb; [done|].
  destruct b as [|b]; simpl in *.
  - injection Hb as ->. unfold sum_cells. simpl. ring.
  - unfold sum_cells in *. simpl. rewrite (IH b Hb). ring.
Qed.


(** [matrix[a, b] += v] inside the array: the cell grows by [v], so does the
    sum of its row, nothing else changes. *)
Lemma matrix_iadd_spec (m : matrix) (n a b : nat) (v : Q) :
  shape m n → (a < n)%nat → (b < n)%nat →
  ∃ m', matrix_iadd m (Z.of_nat a) (Z.of_nat b) v = Ok m'
    ∧ shape m' n
    ∧ (∀ a' b', (cell m' a' b' ==
                 cell m a' b' + (if bool_decide (a' = a ∧ b' = b) then v else 0))%Q)
    ∧ (∀ a', (row_sum m' a' ==
              row_sum m a' + (if bool_decide (a' = a) then v else 0))%Q).
Proof.
  intros [Hlen Hrows] Ha Hb. unfold matrix_iadd.
  rewrite np_index_in_range by lia. simpl.
  destruct (lookup_lt_is_Some_2 m a ltac:(lia)) as [row Hrow].
  rewrite Hrow. pose proof (Hrows _ _ Hrow) as Hrowlen.
  rewrite np_index_in_range by lia. simpl.
  destruct (lookup_lt_is_Some_2 row b ltac:(lia)) as [x Hx].
  rewrite Hx. eexists. split; [done|]. split; [|split].
  - split; [by rewrite length_insert|].
    intros i r Hr. destruct (decide (i = a)) as [->|Hne].
    + rewrite list_lookup_insert_eq in Hr by lia. injection Hr as <-.
      by rewrite length_insert.
    + rewrite list_lookup_insert_ne in Hr by done. by eapply Hrows.
  - intros a' b'. unfold cell.
    destruct (decide (a' = a)) as [->|Hne].
    + rewrite list_lookup_insert_eq by lia. rewrite Hrow. simpl.
      destruct (decide (b' = b)) as [->|Hneb].
      * rewrite list_lookup_insert_eq by lia. rewrite Hx. simpl.
        rewrite bool_decide_eq_true_2 by done. reflexivity.
      * rewrite list_lookup_insert_ne by done.
        rewrite bool_decide_eq_false_2 by (intros [? ?]; congruence). ring.
    + rewrite list_lookup_insert_ne by done.
      rewrite bool_decide_eq_false_2 by (intros [? ?]; congruence). ring.
  - intros a'. unfold row_sum.
    destruct (decide (a' = a)) as [->|Hne].
    + rewrite list_lookup_insert_eq by lia. rewrite Hrow. simpl.
      rewrite bool_decide_eq_true_2 by done. by apply sum_cells_insert.
    + rewrite list_lookup_insert_ne by done.
      rewrite bool_decide_eq_false_2 by done. ring.
Qed.















(** ** Arithmetic around the ring *)

Lemma mod_eq_small n a b :
  0 < n → a mod n = b mod n → - n < a - b < n → a = b.
Proof.
  intros Hn Heq Hd.
  pose proof (Z.div_mod a n ltac:(lia)). pose proof (Z.div_mod b n ltac:(lia)).
  assert (a - b = n * (a / n - b / n)) as Hmul by lia.
  assert (a / n - b / n = 0) by nia. lia.
Qed.

Ltac mod_norm :=
  rewrite ?Zplus_mod_idemp_l, ?Zplus_mod_idemp_r,
          ?Zminus_mod_idemp_l, ?Zminus_mod_idemp_r.

Lemma mod_range n a : 1 ≤ n → 0 ≤ a mod n < n.
Proof. intros. apply Z.mod_pos_bound. lia. Qed.

Lemma succ_pred_mod n r : 0 ≤ r < n → ((r - 1) mod n + 1) mod n = r.
Proof.
  intros Hr. mod_norm. replace (r - 1 + 1) with r by lia. by apply Z.mod_small.
Qed.

Lemma ring_back n r d : 0 ≤ r < n → ((r - d) mod n + d) mod n = r.
Proof.
  intros Hr. mod_norm. replace (r - d + d) with r by lia. by apply Z.mod_small.
Qed.

Lemma mod_ok a n : 1 ≤ n → mod_ a n = Ok (a mod n).
Proof. intros Hn. unfold mod_. destruct (Z.eqb_spec n 0); [lia|done]. Qed.

Lemma succ_mod_inj n r r' :
  0 ≤ r < n → 0 ≤ r' < n → (r + 1) mod n = (r' + 1) mod n → r = r'.
Proof.
  intros Hr Hr' Heq. apply (mod_eq_small n) in Heq; lia.
Qed.

Lemma shift_mod_inj n d i i' :
  0 ≤ i < n → 0 ≤ i' < n → (i + d) mod n = (i' + d) mod n → i = i'.
Proof.
  intros Hi Hi' Heq. apply (mod_eq_small n) in Heq; lia.
Qed.

(** ** Contributor sets *)

Lemma elem_of_full_set n x : x ∈ full_set n ↔ 0 ≤ x < n.
Proof. unfold full_set. by rewrite elem_of_list_to_set, elem_of_range. Qed.

Lemma size_full_set n : size (full_set n) = Z.to_nat n.
Proof.
  unfold full_set, range.
  rewrite size_list_to_set by apply NoDup_seqZ. apply length_seqZ.
Qed.

Lemma elem_of_span n i k x :
  x ∈ span n i k ↔ ∃ j, 0 ≤ j ≤ k ∧ x = (i + j) mod n.
Proof.
  unfold span. rewrite elem_of_list_to_set, list_elem_of_fmap.
  split.
  - intros (j & -> & Hj). apply elem_of_range in Hj. exists j. split; [lia|done].
  - intros (j & Hj & ->). exists j. split; [done|]. apply elem_of_range. lia.
Qed.

Lemma span_zero n i : 0 ≤ i < n → span n i 0 = {[i]}.
Proof.
  intros Hi. apply set_eq. intros x.
  rewrite elem_of_span, elem_of_singleton. split.
  - intros (j & Hj & ->). replace j with 0 by lia.
    rewrite Z.add_0_r. by apply Z.mod_small.
  - intros ->. exists 0. split; [lia|].
    rewrite Z.add_0_r. symmetry. by apply Z.mod_small.
Qed.

Lemma span_succ n i k :
  0 ≤ k → span n i (k + 1) = {[(i + (k + 1)) mod n]} ∪ span n i k.
Proof.
  intros Hk. apply set_eq. intros x.
  rewrite elem_of_union, elem_of_singleton, !elem_of_span. split.
  - intros (j & Hj & ->).
    destruct (decide (j = k + 1)) as [->|?].
    + by left.
    + right. exists j. split; [lia|done].
  - intros [->|(j & Hj & ->)].
    + exists (k + 1). split; [lia|done].
    + exists j. split; [lia|done].
Qed.

Lemma span_subseteq n i k : 0 ≤ k → span n i k ⊆ span n i (k + 1).
Proof. intros Hk. rewrite span_succ by done. apply union_subseteq_r. Qed.

Lemma span_full n i : 1 ≤ n → span n i (n - 1) = full_set n.
Proof.
  intros Hn. apply set_eq. intros x.
  rewrite elem_of_span, elem_of_full_set. split.
  - intros (j & Hj & ->). by apply mod_range.
  - intros Hx. exists ((x - i) mod n). split.
    + pose proof (mod_range n (x - i) Hn). lia.
    + mod_norm. replace (i + (x - i)) with x by lia.
      symmetry. by apply Z.mod_small.
Qed.

Lemma span_not_full n i k : 0 ≤ k < n - 1 → span n i k ≠ full_set n.
Proof.
  intros Hk Heq.
  assert ((i + (k + 1)) mod n ∈ span n i k) as Hin.
  { rewrite Heq. apply elem_of_full_set. apply mod_range. lia. }
  apply elem_of_span in Hin as (j & Hj & Hmod).
  apply (mod_eq_small n) in Hmod; lia.
Qed.

(** ** Chunk objects *)

Lemma grows_refl h : grows h h.
Proof. intros l c Hc. by exists c. Qed.

Lemma grows_trans h1 h2 h3 : grows h1 h2 → grows h2 h3 → grows h1 h3.
Proof.
  intros H12 H23 l c Hc.
  destruct (H12 l c Hc) as (c2 & Hc2 & Hi2 & Hs2).
  destruct (H23 l c2 Hc2) as (c3 & Hc3 & Hi3 & Hs3).
  exists c3. split; [done|]. split; [congruence|set_solver].
Qed.

Lemma grows_app (h ext : heap) : grows h (h ++ ext).
Proof.
  intros l c Hc. exists c. split; [|done].
  by apply lookup_app_l_Some.
Qed.

Lemma add_contributor_grows h l r h' :
  add_contributor h l r = Ok h' → grows h h'.
Proof.
  unfold add_contributor, deref.
  destruct (h !! l) as [c|] eqn:Hl; simpl; [|done].
  intros [= <-] l0 c0 Hc0.
  destruct (decide (l0 = l)) as [->|Hne].
  - rewrite list_lookup_insert_eq by (by eapply lookup_lt_Some).
    eexists. split; [done|]. simpl.
    assert (c0 = c) as -> by congruence. split; [done|set_solver].
  - rewrite list_lookup_insert_ne by done. by exists c0.
Qed.

Lemma deepcopy_spec (h : heap) (l : ref) (c : chunk) :
  h !! l = Some c → deepcopy h l = Ok (h ++ [c], length h).
Proof. intros Hl. unfold deepcopy, deref, alloc. by rewrite Hl. Qed.

Lemma deepcopy_inv h l h' l' :
  deepcopy h l = Ok (h', l') →
  ∃ c, h !! l = Some c ∧ h' = h ++ [c] ∧ l' = length h.
Proof.
  unfold deepcopy, deref, alloc.
  destruct (h !! l) as [c|]; simpl; [|done].
  intros [= <- <-]. by exists c.
Qed.

Lemma lookup_snoc_new (h : heap) (c : chunk) : (h ++ [c]) !! length h = Some c.
Proof. by rewrite lookup_app_r, Nat.sub_diag by lia. Qed.

(** [summarize_holdings] ends normally on a ledger of valid references. *)
Lemma summarize_holdings_ok (h : heap) (ldg : ledger) :
  (∀ i l, ldg !! i = Some l → is_Some (h !! l)) →
  ∃ out, summarize_holdings h ldg = Ok out.
Proof.
  intros Hvalid. unfold summarize_holdings.
  destruct (for_each_inv
    (λ i out, l ← getitem ldg i; c ← deref h l; Ok (out ++ [format_chunk c]))
    (λ _ _, True) (merge_sort Z.le (fst <$> map_to_list ldg)) [] I)
    as (out & Hrun & _); [|by exists out].
  intros j i out Hi _.
  apply list_elem_of_lookup_2 in Hi.
  rewrite merge_sort_Permutation in Hi.
  apply list_elem_of_fmap in Hi as ([i' l] & -> & Hil).
  apply elem_of_map_to_list in Hil. simpl.
  unfold getitem. rewrite Hil. simpl.
  destruct (Hvalid _ _ Hil) as [c Hc]. unfold deref. rewrite Hc. simpl.
  by eexists.
Qed.

(** ** Reduce-scatter *)

Lemma range_of_nat n : range n = range (Z.of_nat (Z.to_nat n)).
Proof. unfold range, seqZ. by rewrite Nat2Z.id. Qed.

Lemma initial_holdings_prefix (k : nat) :
  ∃ h H,
    fold_left
      (λ '(h, H) r, let '(h', l) := alloc h (Chunk r {[r]}) in
                    (h', <[r := {[r := l]}]> H))
      (range (Z.of_nat k)) (([] : heap), (∅ : gmap Z ledger)) = (h, H)
    ∧ length h = k
    ∧ (∀ i, 0 ≤ i < Z.of_nat k → h !! Z.to_nat i = Some (Chunk i {[i]}))
    ∧ (∀ r, 0 ≤ r < Z.of_nat k → H !! r = Some {[r := Z.to_nat r]})
    ∧ (∀ r, is_Some (H !! r) → 0 ≤ r < Z.of_nat k).
Proof.
  induction k as [|k (h & H & Hfold & Hlen & Hheap & Hhold & Hdom)].
  - exists [], ∅. split; [done|]. split; [done|].
    split; [intros; lia|]. split; [intros; lia|].
    intros r [? Hr]. by rewrite lookup_empty in Hr.
  - replace (Z.of_nat (S k)) with (Z.of_nat k + 1) by lia.
    rewrite range_succ, fold_left_app, Hfold by lia. simpl.
    eexists _, _. split; [done|]. split; [|split; [|split]].
    + rewrite length_app. simpl. lia.
    + intros i Hi. destruct (decide (i = Z.of_nat k)) as [->|Hne].
      * rewrite Nat2Z.id, <- Hlen. apply lookup_snoc_new.
      * apply lookup_app_l_Some, Hheap. lia.
    + intros r Hr. destruct (decide (r = Z.of_nat k)) as [->|Hne].
      * rewrite lookup_insert_eq, Nat2Z.id, Hlen. done.
      * rewrite lookup_insert_ne by done. apply Hhold. lia.
    + intros r Hr. destruct (decide (r = Z.of_nat k)) as [->|Hne]; [lia|].
      rewrite lookup_insert_ne in Hr by done. apply Hdom in Hr. lia.
Qed.

Lemma initial_last_received_prefix (k : nat) (r : Z) :
  0 ≤ r < Z.of_nat k →
  fold_left (λ LR r, <[r := r]> LR) (range (Z.of_nat k)) (∅ : gmap Z Z) !! r
  = Some r.
Proof.
  induction k as [|k IH]; [lia|]. intros Hr.
  replace (Z.of_nat (S k)) with (Z.of_nat k + 1) by lia.
  rewrite range_succ, fold_left_app by lia. simpl.
  destruct (decide (r = Z.of_nat k)) as [->|Hne].
  - by rewrite lookup_insert_eq.
  - rewrite lookup_insert_ne by done. apply IH. lia.
Qed.

(** The state before the first round. *)
Lemma rs_inv_initial n :
  ∃ h H, initial_holdings n = (h, H)
    ∧ rs_inv n 0 (State h H (initial_last_received n) []).
Proof.
  unfold initial_holdings, initial_last_received. rewrite (range_of_nat n).
  destruct (initial_holdings_prefix (Z.to_nat n))
    as (h & H & -> & Hlen & Hheap & Hhold & Hdom).
  exists h, H. split; [done|].
  split; [done|]. simpl. split; [|split; [|split]].
  - intros i Hi. rewrite span_zero by done. apply Hheap. lia.
  - intros r Hr. rewrite Z.sub_0_r, Z.mod_small by done. apply Hhold. lia.
  - intros r Hr. apply Hdom in Hr. lia.
  - intros r Hr. rewrite Z.sub_0_r, Z.mod_small by done.
    apply initial_last_received_prefix. lia.
Qed.

(** The first loop of a round empties every ledger and posts chunk
    [(r - k) mod n] of every process [r] for process [r + 1]. *)
Lemma rs_send_loop n cb k st :
  1 ≤ n → rs_inv n k st →
  ∃ H T rows,
    for_each (rs_send n k cb (st_heap st)) (range n) (holdings st, ∅, [])
    = Ok (H, T, rows)
    ∧ (∀ r, 0 ≤ r < n → H !! r = Some ∅)
    ∧ (∀ r, is_Some (H !! r) → 0 ≤ r < n)
    ∧ (∀ r, 0 ≤ r < n →
         T !! ((r + 1) mod n)
         = Some (Transmission r ((r - k) mod n) (Z.to_nat ((r - k) mod n))))
    ∧ length rows = Z.to_nat n
    ∧ (∀ i rw, rows !! i = Some rw → process rw = Z.of_nat i).
Proof.
  intros Hn (Hlen & Hheap & Hhold & Hdom & Hlast).
  destruct (for_each_inv (rs_send n k cb (st_heap st))
    (λ j acc, let '(H, T, rows) := acc in
      (∀ r, 0 ≤ r < n →
         H !! r = Some (if decide (r < Z.of_nat j) then ∅
                        else {[ (r - k) mod n := Z.to_nat ((r - k) mod n) ]}))
      ∧ (∀ r, is_Some (H !! r) → 0 ≤ r < n)
      ∧ (∀ r, 0 ≤ r < Z.of_nat j →
           T !! ((r + 1) mod n)
           = Some (Transmission r ((r - k) mod n) (Z.to_nat ((r - k) mod n))))
      ∧ length rows = j
      ∧ (∀ i rw, rows !! i = Some rw → process rw = Z.of_nat i))
    (range n) (holdings st, ∅, [])) as ([[H T] rows] & Hrun & HP).
  - split; [|split; [done|split; [intros; lia|split; [done|]]]].
    + intros r Hr. rewrite decide_False by lia. by apply Hhold.
    + intros i rw Hrw. by rewrite lookup_nil in Hrw.
  - intros j r [[H T] rows] Hr (HH & HHdom & HT & Hrows & Hproc).
    apply range_lookup in Hr as [-> Hj].
    unfold rs_send. rewrite !mod_ok by done. simpl.
    unfold getitem. rewrite HH by lia. rewrite decide_False by lia. simpl.
    rewrite lookup_singleton_eq. simpl.
    unfold deref. rewrite Hheap by (by apply mod_range). simpl.
    eexists. split; [done|]. simpl.
    split; [|split; [|split; [|split]]].
    + intros r Hr. destruct (decide (r = Z.of_nat j)) as [->|Hne].
      * rewrite lookup_insert_eq, decide_True by lia.
        by rewrite delete_singleton_eq.
      * rewrite lookup_insert_ne, HH by done.
        destruct (decide (r < Z.of_nat j)).
        -- by rewrite decide_True by lia.
        -- by rewrite decide_False by lia.
    + intros r Hr. apply lookup_insert_is_Some in Hr as [<-|[_ Hr]]; [lia|].
      by apply HHdom.
    + intros r Hr. destruct (decide (r = Z.of_nat j)) as [->|Hne].
      * by rewrite lookup_insert_eq.
      * rewrite lookup_insert_ne; [apply HT; lia|].
        intros Heq. apply succ_mod_inj in Heq; lia.
    + rewrite length_app. simpl. lia.
    + intros i rw Hrw. apply lookup_app_Some in Hrw as [Hrw|[Hi Hrw]].
      * by apply Hproc.
      * apply list_lookup_singleton_Some in Hrw as [Hi0 <-]. simpl. lia.
  - rewrite range_length in HP.
    destruct HP as (HH & HHdom & HT & Hrows & Hproc).
    exists H, T, rows. split; [done|].
    split; [|split; [done|split; [|done]]].
    + intros r Hr. rewrite HH by done. by rewrite decide_True by lia.
    + intros r Hr. apply HT. lia.
Qed.

(** The second loop hands chunk [(r - (k+1)) mod n] to every process [r],
    which adds itself to the chunk's contributors. *)
Lemma rs_recv_loop n cb k st H T rows :
  1 ≤ n → 0 ≤ k → rs_inv n k st →
  (∀ r, 0 ≤ r < n → H !! r = Some ∅) →
  (∀ r, is_Some (H !! r) → 0 ≤ r < n) →
  (∀ r, 0 ≤ r < n →
     T !! ((r + 1) mod n)
     = Some (Transmission r ((r - k) mod n) (Z.to_nat ((r - k) mod n)))) →
  length rows = Z.to_nat n →
  (∀ i rw, rows !! i = Some rw → process rw = Z.of_nat i) →
  ∃ h' H' LR' out,
    for_each (rs_recv n k cb T) rows (st_heap st, H, last_received st, [])
    = Ok (h', H', LR', out)
    ∧ rs_inv n (k + 1) (State h' H' LR' (rendered st ++ [(k, out)])).
Proof.
  intros Hn Hk (Hlen & Hheap & Hhold & Hdom & Hlast) HH HHdom HT Hrows Hproc.
  destruct (for_each_inv (rs_recv n k cb T)
    (λ j acc, let '(h', H', LR', out) := acc in
      length h' = Z.to_nat n
      ∧ (∀ i, 0 ≤ i < n →
           h' !! Z.to_nat i
           = Some (Chunk i (if decide ((i + (k + 1)) mod n < Z.of_nat j)
                            then span n i (k + 1) else span n i k)))
      ∧ (∀ r, 0 ≤ r < n →
           H' !! r
           = Some (if decide (r < Z.of_nat j)
                   then {[ (r - (k + 1)) mod n := Z.to_nat ((r - (k + 1)) mod n) ]}
                   else ∅))
      ∧ (∀ r, is_Some (H' !! r) → 0 ≤ r < n)
      ∧ (∀ r, 0 ≤ r < n →
           LR' !! r = Some (if decide (r < Z.of_nat j)
                            then (r - (k + 1)) mod n else (r - k) mod n)))
    rows (st_heap st, H, last_received st, []))
    as ([[[h' H'] LR'] out] & Hrun & HP).
  - split; [done|]. split; [|split; [|split; [done|]]].
    + intros i Hi. rewrite decide_False; [by apply Hheap|].
      pose proof (mod_range n (i + (k + 1)) Hn). lia.
    + intros r Hr. rewrite decide_False by lia. by apply HH.
    + intros r Hr. rewrite decide_False by lia. by apply Hlast.
  - intros j rw [[[h' H'] LR'] out] Hrw (Hlen' & Hheap' & HH' & HHdom' & HLR').
    pose proof (Hproc _ _ Hrw) as Hp.
    apply lookup_lt_Some in Hrw. rewrite Hrows in Hrw.
    assert (0 ≤ Z.of_nat j < n) as Hj by lia.
    unfold rs_recv. rewrite Hp. rewrite mod_ok by done. simpl.
    replace (Z.of_nat j - k - 1) with (Z.of_nat j - (k + 1)) by lia.
    set (r := Z.of_nat j) in *. set (i0 := (r - (k + 1)) mod n).
    assert (0 ≤ i0 < n) as Hi0 by (by apply mod_range).
    assert ((i0 + (k + 1)) mod n = r) as Hback by (by apply ring_back).
    (* the transmission addressed to [r] comes from [r - 1] *)
    assert (T !! r = Some (Transmission ((r - 1) mod n) i0 (Z.to_nat i0))) as HTr.
    { pose proof (HT ((r - 1) mod n) (mod_range n (r - 1) Hn)) as HT'.
      rewrite succ_pred_mod in HT' by done.
      assert (((r - 1) mod n - k) mod n = i0) as Hidx
        by (unfold i0; mod_norm; f_equal; lia).
      by rewrite HT', Hidx. }
    unfold getitem. rewrite HTr. simpl.
    unfold add_contributor, deref. rewrite Hheap' by done.
    rewrite Hback, decide_False by lia. simpl.
    rewrite HH' by done. rewrite decide_False by lia. simpl.
    rewrite list_lookup_insert_eq by lia. simpl.
    rewrite insert_empty.
    destruct (summarize_holdings_ok
      (<[Z.to_nat i0 := Chunk i0 ({[r]} ∪ span n i0 k)]> h')
      {[ i0 := Z.to_nat i0 ]}) as [held ->].
    { intros i l Hil. apply lookup_singleton_Some in Hil as [_ <-].
      rewrite list_lookup_insert_eq by lia. by eexists. }
    simpl. eexists. split; [done|]. simpl.
    split; [by rewrite length_insert|]. split; [|split; [|split]].
    + intros i Hi. destruct (decide (i = i0)) as [->|Hne].
      * rewrite list_lookup_insert_eq by lia.
        rewrite Hback, decide_True by lia.
        rewrite span_succ, Hback by done. done.
      * rewrite list_lookup_insert_ne by lia. rewrite Hheap' by done.
        assert ((i + (k + 1)) mod n ≠ r) as Hner.
        { rewrite <- Hback. intros Heq. by apply shift_mod_inj in Heq. }
        destruct (decide ((i + (k + 1)) mod n < r)).
        -- by rewrite decide_True by lia.
        -- by rewrite decide_False by lia.
    + intros r' Hr'. destruct (decide (r' = r)) as [->|Hne].
      * by rewrite lookup_insert_eq, decide_True by lia.
      * rewrite lookup_insert_ne, HH' by done.
        destruct (decide (r' < r)).
        -- by rewrite decide_True by lia.
        -- by rewrite decide_False by lia.
    + intros r' Hr'. apply lookup_insert_is_Some in Hr' as [<-|[_ Hr']]; [lia|].
      by apply HHdom'.
    + intros r' Hr'. destruct (decide (r' = r)) as [->|Hne].
      * by rewrite lookup_insert_eq, decide_True by lia.
      * rewrite lookup_insert_ne, HLR' by done.
        destruct (decide (r' < r)).
        -- by rewrite decide_True by lia.
        -- by rewrite decide_False by lia.
  - rewrite Hrows in HP. destruct HP as (Hlen' & Hheap' & HH' & HHdom' & HLR').
    exists h', H', LR', out. split; [done|].
    split; [done|]. simpl. split; [|split; [|split; [done|]]].
    + intros i Hi. rewrite Hheap' by done. rewrite decide_True; [done|].
      pose proof (mod_range n (i + (k + 1)) Hn). lia.
    + intros r Hr. rewrite HH' by done. by rewrite decide_True by lia.
    + intros r Hr. rewrite HLR' by done. by rewrite decide_True by lia.
Qed.

(** A round of reduce-scatter advances the invariant. *)
Lemma rs_round_spec n cb k st :
  1 ≤ n → 0 ≤ k → rs_inv n k st →
  ∃ st', rs_round n cb k st = Ok st' ∧ rs_inv n (k + 1) st'.
Proof.
  intros Hn Hk Hinv. unfold rs_round.
  destruct (rs_send_loop n cb k st Hn Hinv)
    as (H & T & rows & -> & HH & HHdom & HT & Hrows & Hproc). simpl.
  destruct (rs_recv_loop n cb k st H T rows Hn Hk Hinv HH HHdom HT Hrows Hproc)
    as (h' & H' & LR' & out & -> & Hinv'). simpl.
  by eexists.
Qed.

(** The simulation, stopped after [k] rounds, ends normally in the state
    described by the invariant. *)
Lemma reduce_scatter_steps_spec n vs k :
  1 ≤ n → 0 ≤ k →
  ∃ st, reduce_scatter_steps n vs (range k) = Ok st ∧ rs_inv n k st.
Proof.
  intros Hn Hk. unfold reduce_scatter_steps, floordiv.
  destruct (Z.eqb_spec n 0) as [?|_]; [lia|]. simpl.
  destruct (rs_inv_initial n) as (h & H & -> & Hinit).
  destruct (for_each_inv (rs_round n (vs / n))
    (λ j st, rs_inv n (Z.of_nat j) st) (range k)
    (State h H (initial_last_received n) []) Hinit) as (st & Hrun & Hinv).
  - intros j s stj Hs Hj. apply range_lookup in Hs as [-> _].
    replace (Z.of_nat (S j)) with (Z.of_nat j + 1) by lia.
    apply rs_round_spec; [done|lia|done].
  - exists st. split; [done|].
    rewrite range_length, Z2Nat.id in Hinv by done. done.
Qed.

Lemma rs_inv_last_received_chunk n k st r :
  1 ≤ n → rs_inv n k st → 0 ≤ r < n →
  last_received_chunk st r
  = Some (Chunk ((r - k) mod n) (span n ((r - k) mod n) k)).
Proof.
  intros Hn (Hlen & Hheap & Hhold & Hdom & Hlast) Hr.
  unfold last_received_chunk.
  rewrite Hlast, Hhold by done. simpl.
  rewrite lookup_singleton_eq. simpl.
  apply Hheap. by apply mod_range.
Qed.

(** C1: for [num_procs >= 2] and a non-negative vector size, the
    reduce-scatter simulation ends normally and, in its final state, the
    chunk that each process [r] holds at index [last_received[r]] has all of
    [{0, ..., num_procs-1}] as contributors; stopped after any smaller
    number of rounds, that chunk still lacks a contributor, so the set
    becomes full exactly at the final round. *)
Theorem reduce_scatter_fully_reduces (num_procs vector_size : Z) :
  2 ≤ num_procs → 0 ≤ vector_size →
  (∃ st, simulate_reduce_scatter num_procs vector_size = Ok st
     ∧ ∀ r, 0 ≤ r < num_procs →
         ∃ c, last_received_chunk st r = Some c
              ∧ contributors c = full_set num_procs)
  ∧ (∀ k, 0 ≤ k < num_procs - 1 →
       ∃ st, reduce_scatter_steps num_procs vector_size (range k) = Ok st
         ∧ ∀ r, 0 ≤ r < num_procs →
             ∃ c, last_received_chunk st r = Some c
                  ∧ contributors c ≠ full_set num_procs).
Proof.
  intros Hn Hvs. split.
  - unfold simulate_reduce_scatter.
    destruct (reduce_scatter_steps_spec num_procs vector_size (num_procs - 1))
      as (st & Hrun & Hinv); [lia..|].
    exists st. split; [done|]. intros r Hr.
    eexists. split; [by apply (rs_inv_last_received_chunk num_procs (num_procs - 1)); [lia|..]|].
    simpl. apply span_full. lia.
  - intros k Hk.
    destruct (reduce_scatter_steps_spec num_procs vector_size k)
      as (st & Hrun & Hinv); [lia..|].
    exists st. split; [done|]. intros r Hr.
    eexists. split; [by apply (rs_inv_last_received_chunk num_procs k); [lia|..]|].
    simpl. by apply span_not_full.
Qed.

Lemma reduce_scatter_fully_reduces_witness :
  (∃ st, simulate_reduce_scatter 4 4096 = Ok st
     ∧ ∃ c, last_received_chunk st 2 = Some c ∧ contributors c = full_set 4)
  ∧ (∃ st, reduce_scatter_steps 4 4096 (range 2) = Ok st
       ∧ ∃ c, last_received_chunk st 2 = Some c ∧ contributors c ≠ full_set 4).
Proof.
  destruct (reduce_scatter_fully_reduces 4 4096 ltac:(lia) ltac:(lia))
    as ((st & Hrun & Hfull) & Hpartial).
  split.
  - exists st. split; [exact Hrun|]. apply (Hfull 2). lia.
  - destruct (Hpartial 2 ltac:(lia)) as (st2 & Hrun2 & Hnot).
    exists st2. split; [exact Hrun2|]. apply (Hnot 2). lia.
Defined.

(** ** Deep copies *)

Lemma copy_of_mono (h h1 h2 : heap) (ldg ldg' : ledger) :
  copy_of h h1 ldg ldg' → h1 `prefix_of` h2 → copy_of h h2 ldg ldg'.
Proof.
  intros [Hdom Hval] Hpre. split; [done|].
  intros i l' Hl'. destruct (Hval i l' Hl') as (l & c & Hl & Hc & Hc' & Hlen).
  exists l, c. split; [done|]. split; [done|]. split; [|done].
  by eapply prefix_lookup_Some.
Qed.

Lemma copy_ledger_spec (ldg : ledger) (h : heap) :
  (∀ i l, ldg !! i = Some l → is_Some (h !! l)) →
  ∃ h' ldg', copy_ledger ldg h = Ok (h', ldg')
    ∧ h `prefix_of` h' ∧ copy_of h h' ldg ldg'.
Proof.
  intros Hvalid. unfold copy_ledger.
  destruct (for_each_inv
    (λ '(i, l) '(h, out), '(h', l') ← deepcopy h l; Ok (h', <[i := l']> out))
    (λ j acc, let '(hj, out) := acc in
      h `prefix_of` hj
      ∧ (∀ i l', out !! i = Some l' →
           ∃ l c, ldg !! i = Some l ∧ h !! l = Some c ∧ hj !! l' = Some c
                  ∧ (length h ≤ l')%nat)
      ∧ (∀ p i l, (p < j)%nat → map_to_list ldg !! p = Some (i, l) →
           is_Some (out !! i)))
    (map_to_list ldg) (h, (∅ : ledger))) as ([h' ldg'] & Hrun & HP).
  - split; [done|]. split; [|intros; lia].
    intros i l' Hl'. by rewrite lookup_empty in Hl'.
  - intros j [i l] [hj out] Hitem (Hpre & Hval & Hseen).
    assert (ldg !! i = Some l) as Hil.
    { apply elem_of_map_to_list. by eapply list_elem_of_lookup_2. }
    destruct (Hvalid _ _ Hil) as [c Hc].
    pose proof (prefix_lookup_Some _ _ _ _ Hc Hpre) as Hcj.
    rewrite (deepcopy_spec hj l c Hcj). simpl.
    eexists. split; [done|]. simpl. split; [|split].
    + by apply prefix_app_r.
    + intros i' l' Hl'. destruct (decide (i' = i)) as [->|Hne].
      * rewrite lookup_insert_eq in Hl'. injection Hl' as <-.
        exists l, c. split; [done|]. split; [done|].
        split; [apply lookup_snoc_new|by apply prefix_length].
      * rewrite lookup_insert_ne in Hl' by done.
        destruct (Hval _ _ Hl') as (l0 & c0 & ? & ? & ? & ?).
        exists l0, c0. split; [done|]. split; [done|].
        split; [by apply lookup_app_l_Some|done].
    + intros p i' l0 Hp Hp'. destruct (decide (p = j)) as [->|Hne].
      * rewrite Hitem in Hp'. injection Hp' as <- <-.
        rewrite lookup_insert_eq. by eexists.
      * apply lookup_insert_is_Some'. right.
        apply (Hseen p i' l0); [lia|done].
  - destruct HP as (Hpre & Hval & Hseen).
    exists h', ldg'. split; [done|]. split; [done|]. split; [|done].
    intros i. split.
    + intros [l' Hl']. destruct (Hval _ _ Hl') as (l & _ & Hl & _). by eexists.
    + intros [l Hl]. apply elem_of_map_to_list, list_elem_of_lookup in Hl as [p Hp].
      apply (Hseen p i l); [|done]. by eapply lookup_lt_Some.
Qed.

Lemma copy_holdings_spec (H0 : gmap Z ledger) (h : heap) :
  (∀ r ldg i l, H0 !! r = Some ldg → ldg !! i = Some l → is_Some (h !! l)) →
  ∃ h' H', copy_holdings H0 h = Ok (h', H')
    ∧ h `prefix_of` h'
    ∧ (∀ r, is_Some (H' !! r) ↔ is_Some (H0 !! r))
    ∧ (∀ r ldg', H' !! r = Some ldg' →
         ∃ ldg, H0 !! r = Some ldg ∧ copy_of h h' ldg ldg').
Proof.
  intros Hvalid. unfold copy_holdings.
  destruct (for_each_inv
    (λ '(r, ldg) '(h, out), '(h', ldg') ← copy_ledger ldg h;
                            Ok (h', <[r := ldg']> out))
    (λ j acc, let '(hj, out) := acc in
      h `prefix_of` hj
      ∧ (∀ r ldg', out !! r = Some ldg' →
           ∃ ldg, H0 !! r = Some ldg ∧ copy_of h hj ldg ldg')
      ∧ (∀ p r ldg, (p < j)%nat → map_to_list H0 !! p = Some (r, ldg) →
           is_Some (out !! r)))
    (map_to_list H0) (h, (∅ : gmap Z ledger))) as ([h' H'] & Hrun & HP).
  - split; [done|]. split; [|intros; lia].
    intros r ldg' Hl'. by rewrite lookup_empty in Hl'.
  - intros j [r ldg] [hj out] Hitem (Hpre & Hval & Hseen).
    assert (H0 !! r = Some ldg) as Hr.
    { apply elem_of_map_to_list. by eapply list_elem_of_lookup_2. }
    destruct (copy_ledger_spec ldg hj) as (h1 & ldg1 & -> & Hpre1 & Hdom1 & Hval1).
    { intros i l Hil. destruct (Hvalid _ _ _ _ Hr Hil) as [c Hc].
      exists c. by eapply prefix_lookup_Some. }
    simpl. eexists. split; [done|]. simpl. split; [|split].
    + by etrans.
    + intros r' ldg' Hl'. destruct (decide (r' = r)) as [->|Hne].
      * rewrite lookup_insert_eq in Hl'. injection Hl' as <-.
        exists ldg. split; [done|]. split; [done|].
        intros i l' Hil'. destruct (Hval1 _ _ Hil') as (l & c & Hl & Hc & Hc' & Hlen).
        exists l, c. split; [done|].
        destruct (Hvalid _ _ _ _ Hr Hl) as [c0 Hc0].
        pose proof (prefix_lookup_Some _ _ _ _ Hc0 Hpre) as Hc0'.
        assert (c0 = c) as -> by congruence.
        split; [done|]. split; [done|].
        apply prefix_length in Hpre. lia.
      * rewrite lookup_insert_ne in Hl' by done.
        destruct (Hval _ _ Hl') as (ldg0 & ? & Hcopy).
        exists ldg0. split; [done|]. by eapply copy_of_mono.
    + intros p r' ldg0 Hp Hp'. destruct (decide (p = j)) as [->|Hne].
      * rewrite Hitem in Hp'. injection Hp' as <- <-.
        rewrite lookup_insert_eq. by eexists.
      * apply lookup_insert_is_Some'. right.
        apply (Hseen p r' ldg0); [lia|done].
  - destruct HP as (Hpre & Hval & Hseen).
    exists h', H'. split; [done|]. split; [done|]. split; [|done].
    intros r. split.
    + intros [l' Hl']. destruct (Hval _ _ Hl') as (l & Hl & _). by eexists.
    + intros [l Hl]. apply elem_of_map_to_list, list_elem_of_lookup in Hl as [p Hp].
      apply (Hseen p r l); [|done]. by eapply lookup_lt_Some.
Qed.

(** ** Allgather *)

Lemma recv_index_eq n r k :
  ((r - 1) mod n + 1 - k) mod n = (r + 1 - (k + 1)) mod n.
Proof.
  replace ((r - 1) mod n + 1 - k) with ((r - 1) mod n + (1 - k)) by lia.
  mod_norm. f_equal. lia.
Qed.

Lemma last_round_index n r : (r - (n - 1)) mod n = (r + 1 - 0) mod n.
Proof.
  replace (r - (n - 1)) with (r + 1 - 0 + (-1) * n) by lia.
  apply Z_mod_plus_full.
Qed.

(** The first loop posts, for process [r + 1], a fresh copy of the chunk
    that process [r] received last. *)
Lemma ag_send_loop n cb k st :
  1 ≤ n → 0 ≤ k → ag_inv n k st →
  ∃ h T rows,
    for_each (ag_send n cb (holdings st) (last_received st))
      (range n) (st_heap st, ∅, []) = Ok (h, T, rows)
    ∧ st_heap st `prefix_of` h
    ∧ (∀ r, 0 ≤ r < n →
         ∃ l', T !! ((r + 1) mod n)
               = Some (Transmission r ((r + 1 - k) mod n) l')
             ∧ h !! l' = Some (Chunk ((r + 1 - k) mod n) (full_set n)))
    ∧ length rows = Z.to_nat n
    ∧ (∀ i rw, rows !! i = Some rw → process rw = Z.of_nat i).
Proof.
  intros Hn Hk (Hhold & Hheap & Hdom & Hlast).
  destruct (for_each_inv (ag_send n cb (holdings st) (last_received st))
    (λ j acc, let '(h, T, rows) := acc in
      st_heap st `prefix_of` h
      ∧ (∀ r, 0 ≤ r < Z.of_nat j →
           ∃ l', T !! ((r + 1) mod n)
                 = Some (Transmission r ((r + 1 - k) mod n) l')
               ∧ h !! l' = Some (Chunk ((r + 1 - k) mod n) (full_set n)))
      ∧ length rows = j
      ∧ (∀ i rw, rows !! i = Some rw → process rw = Z.of_nat i))
    (range n) (st_heap st, ∅, [])) as ([[h T] rows] & Hrun & HP).
  - split; [done|]. split; [intros; lia|]. split; [done|].
    intros i rw Hrw. by rewrite lookup_nil in Hrw.
  - intros j r [[h T] rows] Hr (Hpre & HT & Hrows & Hproc).
    apply range_lookup in Hr as [-> Hj].
    unfold ag_send. rewrite !mod_ok by done. simpl.
    unfold getitem. rewrite Hlast by lia. simpl.
    destruct (Hhold (Z.of_nat j) ltac:(lia)) as (ldg & Hldg & Hkeys).
    rewrite Hldg. simpl.
    destruct (proj2 (Hkeys ((Z.of_nat j + 1 - k) mod n))) as [l Hl].
    { exists k. split; [lia|done]. }
    rewrite Hl. simpl.
    pose proof (Hheap _ _ _ _ Hldg Hl) as Hc.
    pose proof (prefix_lookup_Some _ _ _ _ Hc Hpre) as Hc'.
    rewrite (deepcopy_spec h l _ Hc'). simpl.
    unfold deref. rewrite (lookup_app_l_Some _ _ _ _ Hc'). simpl.
    eexists. split; [done|]. simpl.
    split; [by apply prefix_app_r|]. split; [|split].
    + intros r Hr. destruct (decide (r = Z.of_nat j)) as [->|Hne].
      * exists (length h). rewrite lookup_insert_eq. split; [done|].
        apply lookup_snoc_new.
      * destruct (HT r ltac:(lia)) as (l' & HTl & Hhl).
        exists l'. split; [|by apply lookup_app_l_Some].
        rewrite lookup_insert_ne; [done|].
        intros Heq. apply succ_mod_inj in Heq; lia.
    + rewrite length_app. simpl. lia.
    + intros i rw Hrw. apply lookup_app_Some in Hrw as [Hrw|[Hi Hrw]].
      * by apply Hproc.
      * apply list_lookup_singleton_Some in Hrw as [Hi0 <-]. simpl. lia.
  - rewrite range_length in HP. destruct HP as (Hpre & HT & Hrows & Hproc).
    exists h, T, rows. split; [done|]. split; [done|].
    split; [|done]. intros r Hr. apply HT. lia.
Qed.

(** The second loop stores the received copy where the index is new. *)
Lemma ag_recv_loop n cb k st h T rows :
  1 ≤ n → 0 ≤ k → ag_inv n k st →
  st_heap st `prefix_of` h →
  (∀ r, 0 ≤ r < n →
     ∃ l', T !! ((r + 1) mod n) = Some (Transmission r ((r + 1 - k) mod n) l')
         ∧ h !! l' = Some (Chunk ((r + 1 - k) mod n) (full_set n))) →
  length rows = Z.to_nat n →
  (∀ i rw, rows !! i = Some rw → process rw = Z.of_nat i) →
  ∃ H' LR' out,
    for_each (ag_recv cb h T) rows (holdings st, last_received st, [])
    = Ok (H', LR', out)
    ∧ ag_inv n (k + 1) (State h H' LR' (rendered st ++ [(k, out)])).
Proof.
  intros Hn Hk (Hhold & Hheap & Hdom & Hlast) Hpre HT Hrows Hproc.
  destruct (for_each_inv (ag_recv cb h T)
    (λ j acc, let '(H', LR', out) := acc in
      (∀ r, 0 ≤ r < n →
         ∃ ldg, H' !! r = Some ldg
           ∧ ∀ i, is_Some (ldg !! i) ↔
                  ∃ j', 0 ≤ j' ≤ (if decide (r < Z.of_nat j) then k + 1 else k)
                        ∧ i = (r + 1 - j') mod n)
      ∧ (∀ r ldg i l, H' !! r = Some ldg → ldg !! i = Some l →
           h !! l = Some (Chunk i (full_set n)))
      ∧ (∀ r, is_Some (H' !! r) → 0 ≤ r < n)
      ∧ (∀ r, 0 ≤ r < n →
           LR' !! r = Some (if decide (r < Z.of_nat j)
                            then (r + 1 - (k + 1)) mod n else (r + 1 - k) mod n)))
    rows (holdings st, last_received st, [])) as ([[H' LR'] out] & Hrun & HP).
  - split; [|split; [|split; [done|]]].
    + intros r Hr. destruct (Hhold r Hr) as (ldg & Hldg & Hkeys).
      exists ldg. split; [done|]. by rewrite decide_False by lia.
    + intros r ldg i l Hldg Hl. eapply prefix_lookup_Some; [|done]. by eapply Hheap.
    + intros r Hr. rewrite decide_False by lia. by apply Hlast.
  - intros j rw [[H' LR'] out] Hrw (HH' & Hheap' & Hdom' & HLR').
    pose proof (Hproc _ _ Hrw) as Hp.
    apply lookup_lt_Some in Hrw. rewrite Hrows in Hrw.
    assert (0 ≤ Z.of_nat j < n) as Hj by lia.
    unfold ag_recv. rewrite Hp. set (r := Z.of_nat j) in *.
    destruct (HT ((r - 1) mod n) (mod_range n (r - 1) Hn)) as (l' & HTr & Hl').
    rewrite succ_pred_mod, recv_index_eq in HTr by done.
    rewrite recv_index_eq in Hl'.
    set (ri := (r + 1 - (k + 1)) mod n) in *.
    unfold getitem. rewrite HTr. simpl.
    destruct (HH' r Hj) as (ldg & Hldg & Hkeys).
    rewrite decide_False in Hkeys by lia.
    rewrite Hldg. simpl.
    set (ldg' := match ldg !! ri with
                 | Some _ => ldg
                 | None => <[ri := l']> ldg
                 end).
    assert (∀ i, is_Some (ldg' !! i) ↔ i = ri ∨ is_Some (ldg !! i)) as Hkeys'.
    { intros i. unfold ldg'. destruct (ldg !! ri) as [l0|] eqn:Hri.
      - split; [by right|]. intros [->|?]; [by eexists|done].
      - rewrite lookup_insert_is_Some'. split; (intros [?|?]; [by left|by right]). }
    assert (∀ i l, ldg' !! i = Some l → h !! l = Some (Chunk i (full_set n)))
      as Hvals'.
    { intros i l. unfold ldg'. destruct (ldg !! ri) as [l0|] eqn:Hri.
      - by apply (Hheap' r ldg).
      - intros Hl. apply lookup_insert_Some in Hl as [[<- <-]|[_ Hl]]; [done|].
        by apply (Hheap' r ldg). }
    unfold deref. rewrite Hl'. simpl.
    destruct (summarize_holdings_ok h ldg') as [held ->].
    { intros i l Hl. rewrite (Hvals' _ _ Hl). by eexists. }
    simpl. eexists. split; [done|]. simpl. split; [|split; [|split]].
    + intros r' Hr'. destruct (decide (r' = r)) as [->|Hne].
      * exists ldg'. rewrite lookup_insert_eq. split; [done|].
        rewrite decide_True by lia. intros i. rewrite Hkeys', Hkeys. split.
        -- intros [->|(j' & Hj' & ->)].
           ++ exists (k + 1). split; [lia|done].
           ++ exists j'. split; [lia|done].
        -- intros (j' & Hj' & ->). destruct (decide (j' = k + 1)) as [->|?].
           ++ by left.
           ++ right. exists j'. split; [lia|done].
      * destruct (HH' r' Hr') as (ldg0 & Hldg0 & Hkeys0).
        exists ldg0. rewrite lookup_insert_ne by done. split; [done|].
        destruct (decide (r' < r)).
        -- by rewrite decide_True by lia.
        -- by rewrite decide_False by lia.
    + intros r' ldg0 i l Hldg0 Hl. destruct (decide (r' = r)) as [->|Hne].
      * rewrite lookup_insert_eq in Hldg0. injection Hldg0 as <-.
        by apply Hvals'.
      * rewrite lookup_insert_ne in Hldg0 by done. by eapply Hheap'.
    + intros r' Hr'. apply lookup_insert_is_Some in Hr' as [<-|[_ Hr']]; [lia|].
      by apply Hdom'.
    + intros r' Hr'. destruct (decide (r' = r)) as [->|Hne].
      * by rewrite lookup_insert_eq, decide_True by lia.
      * rewrite lookup_insert_ne, HLR' by done.
        destruct (decide (r' < r)).
        -- by rewrite decide_True by lia.
        -- by rewrite decide_False by lia.
  - rewrite Hrows in HP. destruct HP as (HH' & Hheap' & Hdom' & HLR').
    exists H', LR', out. split; [done|].
    split; [|split; [done|split; [done|]]]; simpl.
    + intros r Hr. destruct (HH' r Hr) as (ldg & Hldg & Hkeys).
      exists ldg. split; [done|]. by rewrite decide_True in Hkeys by lia.
    + intros r Hr. rewrite HLR' by done. by rewrite decide_True by lia.
Qed.

(** A round of allgather advances the invariant and only allocates. *)
Lemma ag_round_spec n cb k st :
  1 ≤ n → 0 ≤ k → ag_inv n k st →
  ∃ st', ag_round n cb k st = Ok st' ∧ ag_inv n (k + 1) st'.
Proof.
  intros Hn Hk Hinv. unfold ag_round.
  destruct (ag_send_loop n cb k st Hn Hk Hinv)
    as (h & T & rows & -> & Hpre & HT & Hrows & Hproc). simpl.
  destruct (ag_recv_loop n cb k st h T rows Hn Hk Hinv Hpre HT Hrows Hproc)
    as (H' & LR' & out & -> & Hinv'). simpl.
  by eexists.
Qed.

(** The allgather simulation started from the final state of reduce-scatter
    and stopped after [k] rounds. *)
Lemma allgather_steps_spec n vs k st1 :
  1 ≤ n → 0 ≤ k → rs_inv n (n - 1) st1 →
  ∃ st, allgather_steps n vs (st_heap st1) (holdings st1) (last_received st1)
          (range k) = Ok st
    ∧ ag_inv n k st.
Proof.
  intros Hn Hk (Hlen & Hheap & Hhold & Hdom & Hlast).
  unfold allgather_steps, floordiv.
  destruct (Z.eqb_spec n 0) as [?|_]; [lia|]. simpl.
  destruct (copy_holdings_spec (holdings st1) (st_heap st1))
    as (h' & H' & -> & Hpre & Hkeys & Hcopy).
  { intros r ldg i l Hldg Hl. pose proof (Hdom r ltac:(by eexists)) as Hr.
    rewrite Hhold in Hldg by done. injection Hldg as <-.
    apply lookup_singleton_Some in Hl as [<- <-].
    rewrite Hheap by (apply mod_range; lia). by eexists. }
  simpl.
  destruct (for_each_inv (ag_round n (vs / n))
    (λ j st, ag_inv n (Z.of_nat j) st) (range k)
    (State h' H' (last_received st1) [])) as (st & Hrun & Hinv).
  - split; [|split; [|split]]; simpl.
    + intros r Hr. destruct (proj2 (Hkeys r)) as [ldg' Hldg'].
      { rewrite Hhold by done. by eexists. }
      exists ldg'. split; [done|].
      destruct (Hcopy _ _ Hldg') as (ldg & Hldg & Hsame & _).
      rewrite Hhold in Hldg by done. injection Hldg as <-.
      intros i. rewrite Hsame, last_round_index.
      split.
      * intros [l Hl]. apply lookup_singleton_Some in Hl as [<- _].
        exists 0. split; [lia|done].
      * intros (j & Hj & ->). replace j with 0 by lia.
        rewrite lookup_singleton_eq. by eexists.
    + intros r ldg' i l' Hldg' Hl'.
      destruct (Hcopy _ _ Hldg') as (ldg & Hldg & _ & Hvals).
      destruct (Hvals _ _ Hl') as (l & c & Hl & Hc & Hc' & _).
      pose proof (Hdom r ltac:(by eexists)) as Hr.
      rewrite Hhold in Hldg by done. injection Hldg as <-.
      apply lookup_singleton_Some in Hl as [<- <-].
      rewrite Hheap in Hc by (apply mod_range; lia). injection Hc as <-.
      rewrite Hc'. by rewrite span_full by lia.
    + intros r Hr. apply Hdom. by apply Hkeys.
    + intros r Hr. rewrite Hlast by done. by rewrite last_round_index.
  - intros j s stj Hs Hj. apply range_lookup in Hs as [-> _].
    replace (Z.of_nat (S j)) with (Z.of_nat j + 1) by lia.
    apply ag_round_spec; [done|lia|done].
  - exists st. split; [done|].
    rewrite range_length, Z2Nat.id in Hinv by done. done.
Qed.

(** After the last round a ledger has exactly the indices [0, ..., n-1]. *)
Lemma ag_inv_final_keys n r i :
  1 ≤ n → (∃ j, 0 ≤ j ≤ n - 1 ∧ i = (r + 1 - j) mod n) ↔ 0 ≤ i < n.
Proof.
  intros Hn. split.
  - intros (j & _ & ->). by apply mod_range.
  - intros Hi. exists ((r + 1 - i) mod n). split.
    + pose proof (mod_range n (r + 1 - i) Hn). lia.
    + mod_norm. replace (r + 1 - (r + 1 - i)) with i by lia.
      symmetry. by apply Z.mod_small.
Qed.

(** C2: for [num_procs >= 2], the allgather simulation started from the
    final state of reduce-scatter ends normally; the ledgers are those of
    the processes [0, ..., num_procs-1], and each of them has exactly
    [num_procs] entries, one for every chunk index of [[0, num_procs)], each
    a chunk of that index whose contributors are all the ranks. *)
Theorem allgather_completes_every_ledger (num_procs vector_size : Z) :
  2 ≤ num_procs →
  ∃ st1 st,
    simulate_reduce_scatter num_procs vector_size = Ok st1
    ∧ simulate_allgather num_procs vector_size
        (st_heap st1) (holdings st1) (last_received st1) = Ok st
    ∧ dom (holdings st) = full_set num_procs
    ∧ ∀ r, 0 ≤ r < num_procs →
        ∃ ldg, holdings st !! r = Some ldg
          ∧ size ldg = Z.to_nat num_procs
          ∧ dom ldg = full_set num_procs
          ∧ ∀ i l, ldg !! i = Some l →
              st_heap st !! l = Some (Chunk i (full_set num_procs)).
Proof.
  intros Hn.
  destruct (reduce_scatter_steps_spec num_procs vector_size (num_procs - 1))
    as (st1 & Hrun1 & Hinv1); [lia..|].
  destruct (allgather_steps_spec num_procs vector_size (num_procs - 1) st1)
    as (st & Hrun & Hhold & Hheap & Hdom & Hlast); [lia..|done|].
  exists st1, st. split; [done|]. split; [done|]. split.
  - apply set_eq. intros r. rewrite elem_of_dom, elem_of_full_set.
    split; [apply Hdom|]. intros Hr.
    destruct (Hhold r Hr) as (ldg & -> & _). by eexists.
  - intros r Hr. destruct (Hhold r Hr) as (ldg & Hldg & Hkeys).
    exists ldg. split; [done|].
    assert (dom ldg = full_set num_procs) as Hd.
    { apply set_eq. intros i.
      rewrite elem_of_dom, elem_of_full_set, Hkeys.
      apply ag_inv_final_keys. lia. }
    split; [|split; [done|]].
    + by rewrite <- size_dom, Hd, size_full_set.
    + intros i l Hl. by eapply Hheap.
Qed.

Lemma allgather_completes_every_ledger_witness :
  ∃ st1 st,
    simulate_reduce_scatter 3 10 = Ok st1
    ∧ simulate_allgather 3 10 (st_heap st1) (holdings st1) (last_received st1)
      = Ok st
    ∧ ∃ ldg, holdings st !! 1 = Some ldg ∧ size ldg = 3%nat
             ∧ dom ldg = full_set 3.
Proof.
  destruct (allgather_completes_every_ledger 3 10 ltac:(lia))
    as (st1 & st & Hrun1 & Hrun & _ & Hall).
  exists st1, st. split; [exact Hrun1|]. split; [exact Hrun|].
  destruct (Hall 1 ltac:(lia)) as (ldg & Hldg & Hsize & Hd & _).
  exists ldg. split; [exact Hldg|]. split; [exact Hsize | exact Hd].
Defined.

(** ** Chunk objects across a round *)

(** Splits a successful run of monadic binds in [H] into its steps. *)
Ltac inv_binds H :=
  simpl in H;
  repeat match type of H with
         | mbind _ ?x = Ok _ => destruct x eqn:?; simpl in H; [|discriminate H]
         end.

Lemma rs_recv_grows n k cb T rw acc acc' :
  rs_recv n k cb T rw acc = Ok acc' → grows acc.1.1.1 acc'.1.1.1.
Proof.
  destruct acc as [[[h H] LR] out]. unfold rs_recv. intros Hrun.
  inv_binds Hrun. injection Hrun as <-. simpl.
  by eapply add_contributor_grows.
Qed.

(** A round of reduce-scatter keeps every chunk object, with its index, and
    only adds to its contributors. *)
Lemma rs_round_grows n cb k st st' :
  rs_round n cb k st = Ok st' → grows (st_heap st) (st_heap st').
Proof.
  unfold rs_round. intros Hrun.
  destruct (for_each (rs_send n k cb (st_heap st)) (range n) (holdings st, ∅, []))
    as [[[H T] rows]|] eqn:Hsend; simpl in Hrun; [|done].
  destruct (for_each (rs_recv n k cb T) rows (st_heap st, H, last_received st, []))
    as [[[[h' H'] LR'] out]|] eqn:Hrecv; simpl in Hrun; [|done].
  injection Hrun as <-. simpl.
  apply (for_each_rel (rs_recv n k cb T) (λ a a', grows a.1.1.1 a'.1.1.1) rows)
    in Hrecv; [done|..].
  - intros a. apply grows_refl.
  - intros a1 a2 a3. apply grows_trans.
  - intros rw a a' _. apply rs_recv_grows.
Qed.

Lemma ag_send_prefix n cb H LR r acc acc' :
  ag_send n cb H LR r acc = Ok acc' → acc.1.1 `prefix_of` acc'.1.1.
Proof.
  destruct acc as [[h T] rows]. unfold ag_send. intros Hrun.
  inv_binds Hrun.
  match goal with Hd : deepcopy _ _ = Ok ?p |- _ =>
    destruct p as [h' l']; apply deepcopy_inv in Hd as (c & _ & -> & _) end.
  inv_binds Hrun. injection Hrun as <-. simpl. by apply prefix_app_r.
Qed.

(** A round of allgather only allocates: the chunk objects that exist
    before it are unchanged after it. *)
Lemma ag_round_prefix n cb k st st' :
  ag_round n cb k st = Ok st' → st_heap st `prefix_of` st_heap st'.
Proof.
  unfold ag_round. intros Hrun.
  destruct (for_each (ag_send n cb (holdings st) (last_received st))
              (range n) (st_heap st, ∅, []))
    as [[[h T] rows]|] eqn:Hsend; simpl in Hrun; [|done].
  destruct (for_each (ag_recv cb h T) rows (holdings st, last_received st, []))
    as [[[H' LR'] out]|] eqn:Hrecv; simpl in Hrun; [|done].
  injection Hrun as <-. simpl.
  apply (for_each_rel _ (λ a a', a.1.1 `prefix_of` a'.1.1)) in Hsend; [done|..].
  - done.
  - intros a1 a2 a3 ??. by etrans.
  - intros r a a' _. apply ag_send_prefix.
Qed.

Lemma prefix_grows (h h' : heap) : h `prefix_of` h' → grows h h'.
Proof. intros [ext ->]. apply grows_app. Qed.

Lemma copy_ledger_prefix ldg h h' ldg' :
  copy_ledger ldg h = Ok (h', ldg') → h `prefix_of` h'.
Proof.
  unfold copy_ledger. intros Hrun.
  apply (for_each_rel _ (λ a a', a.1 `prefix_of` a'.1)) in Hrun; [done|..].
  - done.
  - intros a1 a2 a3 ??. by etrans.
  - intros [i l] [hj out] a' _ Hstep. inv_binds Hstep.
    match goal with Hd : deepcopy _ _ = Ok ?p |- _ =>
      destruct p as [h1 l1]; apply deepcopy_inv in Hd as (c & _ & -> & _) end.
    injection Hstep as <-. simpl. by apply prefix_app_r.
Qed.

Lemma copy_holdings_prefix H0 h h' H' :
  copy_holdings H0 h = Ok (h', H') → h `prefix_of` h'.
Proof.
  unfold copy_holdings. intros Hrun.
  apply (for_each_rel _ (λ a a', a.1 `prefix_of` a'.1)) in Hrun; [done|..].
  - done.
  - intros a1 a2 a3 ??. by etrans.
  - intros [r ldg] [hj out] a' _ Hstep. inv_binds Hstep.
    match goal with Hd : copy_ledger _ _ = Ok ?p |- _ =>
      destruct p as [h1 l1]; apply copy_ledger_prefix in Hd end.
    injection Hstep as <-. done.
Qed.

(** The allgather simulation leaves the chunk objects it was given as they
    were: it works on copies. *)
Lemma allgather_keeps_chunk_objects n vs h H0 LR steps st :
  allgather_steps n vs h H0 LR steps = Ok st → h `prefix_of` st_heap st.
Proof.
  unfold allgather_steps. intros Hrun. inv_binds Hrun.
  match goal with Hd : copy_holdings _ _ = Ok ?p |- _ =>
    destruct p as [h1 H1]; apply copy_holdings_prefix in Hd end.
  simpl in Hrun.
  apply (for_each_rel _ (λ s s', st_heap s `prefix_of` st_heap s')) in Hrun.
  - simpl in Hrun. by etrans.
  - done.
  - intros a1 a2 a3 ??. by etrans.
  - intros k s s' _. apply ag_round_prefix.
Qed.

Lemma rs_inv_holds n k st r i l c :
  rs_inv n k st → holds st r i l c → c = Chunk i (span n i k).
Proof.
  intros (Hlen & Hheap & Hhold & Hdom & Hlast) (ldg & Hldg & Hl & Hc).
  pose proof (Hdom r ltac:(by eexists)) as Hr.
  rewrite Hhold in Hldg by done. injection Hldg as <-.
  apply lookup_singleton_Some in Hl as [<- <-].
  rewrite Hheap in Hc by (apply mod_range; lia). by injection Hc as <-.
Qed.

Lemma ag_inv_holds n k st r i l c :
  ag_inv n k st → holds st r i l c → c = Chunk i (full_set n).
Proof.
  intros (Hhold & Hheap & Hdom & Hlast) (ldg & Hldg & Hl & Hc).
  rewrite (Hheap _ _ _ _ Hldg Hl) in Hc. by injection Hc as <-.
Qed.

Lemma steps_snoc {St : Type} (body : Z → St → result St) k st0 :
  0 ≤ k →
  for_each body (range (k + 1)) st0
  = (st ← for_each body (range k) st0; body k st).
Proof.
  intros Hk. rewrite range_succ, for_each_app by done.
  destruct (for_each body (range k) st0) as [st|e]; simpl; [|done].
  by destruct (body k st).
Qed.

(** C9: in both phases a chunk's contributor set only grows across a round.
    On any state on which a round ends normally, every chunk object that
    exists before the round exists after it with the same index and a
    superset of its contributors.  Along the simulations themselves, for
    every round and every chunk index, the contributors with which any
    process holds that chunk after the round include those with which any
    process held it before. *)
Theorem contributors_only_grow (num_procs vector_size : Z) :
  1 ≤ num_procs →
  (∀ cb k st st', rs_round num_procs cb k st = Ok st' →
     grows (st_heap st) (st_heap st'))
  ∧ (∀ cb k st st', ag_round num_procs cb k st = Ok st' →
       grows (st_heap st) (st_heap st'))
  ∧ (∀ k, 0 ≤ k < num_procs - 1 →
       ∃ st st',
         reduce_scatter_steps num_procs vector_size (range k) = Ok st
         ∧ reduce_scatter_steps num_procs vector_size (range (k + 1)) = Ok st'
         ∧ rs_round num_procs (vector_size / num_procs) k st = Ok st'
         ∧ ∀ r r' i l l' c c',
             holds st r i l c → holds st' r' i l' c' →
             contributors c ⊆ contributors c')
  ∧ (∀ st1 k, simulate_reduce_scatter num_procs vector_size = Ok st1 →
       0 ≤ k < num_procs - 1 →
       ∃ st st',
         allgather_steps num_procs vector_size
           (st_heap st1) (holdings st1) (last_received st1) (range k) = Ok st
         ∧ allgather_steps num_procs vector_size
             (st_heap st1) (holdings st1) (last_received st1) (range (k + 1))
           = Ok st'
         ∧ ag_round num_procs (vector_size / num_procs) k st = Ok st'
         ∧ ∀ r r' i l l' c c',
             holds st r i l c → holds st' r' i l' c' →
             contributors c ⊆ contributors c').
Proof.
  intros Hn. split; [|split; [|split]].
  - intros cb k st st'. apply rs_round_grows.
  - intros cb k st st' Hrun. by eapply prefix_grows, ag_round_prefix.
  - intros k Hk.
    destruct (reduce_scatter_steps_spec num_procs vector_size k)
      as (st & Hrun & Hinv); [lia..|].
    destruct (reduce_scatter_steps_spec num_procs vector_size (k + 1))
      as (st' & Hrun' & Hinv'); [lia..|].
    exists st, st'. split; [done|]. split; [done|]. split.
    + revert Hrun Hrun'. unfold reduce_scatter_steps, floordiv.
      destruct (Z.eqb_spec num_procs 0) as [?|_]; [lia|]. simpl.
      destruct (initial_holdings num_procs) as [h H].
      rewrite steps_snoc by lia. by intros ->.
    + intros r r' i l l' c c' Hc Hc'.
      rewrite (rs_inv_holds _ _ _ _ _ _ _ Hinv Hc).
      rewrite (rs_inv_holds _ _ _ _ _ _ _ Hinv' Hc'). simpl.
      apply span_subseteq. lia.
  - intros st1 k Hrun1 Hk.
    assert (rs_inv num_procs (num_procs - 1) st1) as Hinv1.
    { destruct (reduce_scatter_steps_spec num_procs vector_size (num_procs - 1))
        as (st1' & Hrun1' & Hinv1); [lia..|].
      unfold simulate_reduce_scatter in Hrun1. congruence. }
    destruct (allgather_steps_spec num_procs vector_size k st1)
      as (st & Hrun & Hinv); [lia..|done|].
    destruct (allgather_steps_spec num_procs vector_size (k + 1) st1)
      as (st' & Hrun' & Hinv'); [lia..|done|].
    exists st, st'. split; [done|]. split; [done|]. split.
    + revert Hrun Hrun'. unfold allgather_steps, floordiv.
      destruct (Z.eqb_spec num_procs 0) as [?|_]; [lia|]. simpl.
      destruct (copy_holdings (holdings st1) (st_heap st1)) as [[h' H']|];
        simpl; [|done].
      rewrite steps_snoc by lia. by intros ->.
    + intros r r' i l l' c c' Hc Hc'.
      rewrite (ag_inv_holds _ _ _ _ _ _ _ Hinv Hc).
      by rewrite (ag_inv_holds _ _ _ _ _ _ _ Hinv' Hc').
Qed.

Lemma contributors_only_grow_witness :
  ∃ st st',
    reduce_scatter_steps 3 10 (range 1) = Ok st
    ∧ rs_round 3 (10 / 3) 1 st = Ok st'
    ∧ grows (st_heap st) (st_heap st')
    ∧ ∀ r r' i l l' c c',
        holds st r i l c → holds st' r' i l' c' →
        contributors c ⊆ contributors c'.
Proof.
  destruct (contributors_only_grow 3 10 ltac:(lia)) as (Hobj & _ & Hrun & _).
  destruct (Hrun 1 ltac:(lia)) as (st & st' & Hst & _ & Hround & Hsub).
  exists st, st'. split; [exact Hst|]. split; [exact Hround|].
  split; [exact (Hobj _ _ _ _ Hround) | exact Hsub].
Defined.

(** The allgather simulation writes into the [last_received] dictionary it
    is given: started from the final state of reduce-scatter on at least two
    processes, it leaves in it, for every process, another index than the
    one reduce-scatter had recorded.  The chunk objects of reduce-scatter are
    left as they were. *)
Lemma allgather_changes_last_received (num_procs vector_size : Z) :
  2 ≤ num_procs →
  ∃ st1 st,
    simulate_reduce_scatter num_procs vector_size = Ok st1
    ∧ simulate_allgather num_procs vector_size
        (st_heap st1) (holdings st1) (last_received st1) = Ok st
    ∧ st_heap st1 `prefix_of` st_heap st
    ∧ ∀ r, 0 ≤ r < num_procs →
        last_received st1 !! r = Some ((r + 1) mod num_procs)
        ∧ last_received st !! r = Some ((r + 2) mod num_procs)
        ∧ last_received st !! r ≠ last_received st1 !! r.
Proof.
  intros Hn.
  destruct (reduce_scatter_steps_spec num_procs vector_size (num_procs - 1))
    as (st1 & Hrun1 & Hinv1); [lia..|].
  destruct (allgather_steps_spec num_procs vector_size (num_procs - 1) st1)
    as (st & Hrun & Hhold & Hheap & Hdom & Hlast); [lia..|done|].
  exists st1, st. split; [done|]. split; [done|].
  split; [by eapply allgather_keeps_chunk_objects|].
  intros r Hr. destruct Hinv1 as (_ & _ & _ & _ & Hlast1).
  assert ((r - (num_procs - 1)) mod num_procs = (r + 1) mod num_procs) as E1.
  { rewrite last_round_index. f_equal. lia. }
  assert ((r + 1 - (num_procs - 1)) mod num_procs = (r + 2) mod num_procs) as E2.
  { replace (r + 1 - (num_procs - 1)) with (r + 2 + (-1) * num_procs) by lia.
    apply Z_mod_plus_full. }
  rewrite Hlast1, Hlast, E1, E2 by done.
  split; [done|]. split; [done|].
  intros [= Heq]. apply (mod_eq_small num_procs) in Heq; lia.
Qed.

(** C7 fails on the code for the [last_received] dictionary: on two
    processes reduce-scatter returns [{0: 1, 1: 0}], and after the allgather
    call the same dictionary reads [{0: 0, 1: 1}].  The ledgers that were
    passed in are not written to, and the chunk objects they refer to are
    unchanged. *)
Theorem allgather_overwrites_last_received :
  ∃ st1 st,
    simulate_reduce_scatter 2 8 = Ok st1
    ∧ simulate_allgather 2 8 (st_heap st1) (holdings st1) (last_received st1)
      = Ok st
    ∧ last_received st1 = {[ 0 := 1; 1 := 0 ]}
    ∧ last_received st = {[ 0 := 0; 1 := 1 ]}
    ∧ last_received st ≠ last_received st1
    ∧ st_heap st1 `prefix_of` st_heap st.
Proof.
  destruct (simulate_reduce_scatter 2 8) as [st1|] eqn:Hrun1;
    [|by vm_compute in Hrun1].
  destruct (simulate_allgather 2 8 (st_heap st1) (holdings st1) (last_received st1))
    as [st|] eqn:Hrun.
  2: { vm_compute in Hrun1. injection Hrun1 as <-. by vm_compute in Hrun. }
  exists st1, st. split; [done|]. split; [done|].
  assert (st_heap st1 `prefix_of` st_heap st) as Hpre
    by (by eapply allgather_keeps_chunk_objects).
  assert (last_received st1 = {[ 0 := 1; 1 := 0 ]}) as H1.
  { vm_compute in Hrun1. injection Hrun1 as <-. vm_compute. reflexivity. }
  split; [done|].
  assert (last_received st = {[ 0 := 0; 1 := 1 ]}) as H2.
  { vm_compute in Hrun1. injection Hrun1 as <-.
    vm_compute in Hrun. injection Hrun as <-. vm_compute. reflexivity. }
  split; [done|]. split; [|done].
  rewrite H1, H2. intros Heq.
  apply (f_equal (λ m : gmap Z Z, m !! 0)) in Heq. done.
Qed.

(** ** Further properties of the Swing partner selection *)

Lemma alternating_sum_odd (k : nat) : alternating_sum k mod 2 = 1.
Proof.
  induction k as [|k IH]; [reflexivity|].
  simpl alternating_sum.
  rewrite Nat2Z.inj_succ, Z.pow_succ_r by lia.
  replace (alternating_sum k + -2 * (-2) ^ Z.of_nat k)
    with (alternating_sum k + (- (-2) ^ Z.of_nat k) * 2) by lia.
  by rewrite Z_mod_plus_full.
Qed.

Lemma rho_odd (step : Z) : 0 ≤ step → rho step mod 2 = 1.
Proof.
  intros Hs. rewrite <- (Z2Nat.id step) by done.
  rewrite rho_alternating_sum. apply alternating_sum_odd.
Qed.

(** The offset is odd at every step from 0 on; [range(step + 1)] is empty
    for a negative step, and the offset is then 0. *)
Theorem rho_odd_or_zero (step : Z) :
  (0 ≤ step → rho step mod 2 = 1) ∧ (step < 0 → rho step = 0).
Proof.
  split; [apply rho_odd|].
  intros Hs. unfold rho, range. by rewrite seqZ_nil by lia.
Qed.

Lemma rho_odd_or_zero_witness : rho 4 mod 2 = 1 ∧ rho (-3) = 0.
Proof.
  split.
  - apply (rho_odd_or_zero 4). lia.
  - apply (rho_odd_or_zero (-3)). lia.
Defined.

Lemma mod_even_parity ws x : 1 ≤ ws → ws mod 2 = 0 → (x mod ws) mod 2 = x mod 2.
Proof.
  intros Hws Heven. apply Z.mod_mod_divide.
  exists (ws / 2). pose proof (Z.div_mod ws 2). lia.
Qed.

Lemma pi_even_rank rank step ws :
  1 ≤ ws → rank mod 2 = 0 → pi rank step ws = Ok ((rank + rho step) mod ws).
Proof.
  intros Hws Hr. unfold pi. rewrite Hr. simpl. by apply mod_ok.
Qed.

Lemma pi_odd_rank rank step ws :
  1 ≤ ws → rank mod 2 = 1 → pi rank step ws = Ok ((rank - rho step) mod ws).
Proof.
  intros Hws Hr. unfold pi. rewrite Hr. simpl. by apply mod_ok.
Qed.

Lemma parity_cases x : x mod 2 = 0 ∨ x mod 2 = 1.
Proof. pose proof (Z.mod_pos_bound x 2). lia. Qed.

Lemma parity_add x y : (x + y) mod 2 = (x mod 2 + y mod 2) mod 2.
Proof. apply Zplus_mod. Qed.

Lemma parity_sub x y : (x - y) mod 2 = (x mod 2 - y mod 2) mod 2.
Proof. apply Zminus_mod. Qed.

Lemma pi_parity (rank step ws : Z) :
  1 ≤ ws → ws mod 2 = 0 → 0 ≤ step →
  ∃ peer, pi rank step ws = Ok peer ∧ peer mod 2 = 1 - rank mod 2.
Proof.
  intros Hws Heven Hs. pose proof (rho_odd step Hs) as Hrho.
  destruct (parity_cases rank) as [Hr|Hr].
  - rewrite pi_even_rank by done. eexists. split; [done|].
    rewrite mod_even_parity, parity_add, Hr, Hrho by done. done.
  - rewrite pi_odd_rank by done. eexists. split; [done|].
    rewrite mod_even_parity, parity_sub, Hr, Hrho by done. done.
Qed.

(** With an even number of ranks, a rank and its partner have opposite
    parities at every step from 0 on: no rank is its own partner. *)
Theorem pi_flips_parity (rank step ws : Z) :
  1 ≤ ws → ws mod 2 = 0 → 0 ≤ step →
  ∃ peer, pi rank step ws = Ok peer
    ∧ peer mod 2 = 1 - rank mod 2 ∧ peer ≠ rank.
Proof.
  intros Hws Heven Hs.
  destruct (pi_parity rank step ws Hws Heven Hs) as (peer & Hpi & Hpar).
  exists peer. split; [done|]. split; [done|].
  intros ->. destruct (parity_cases rank); lia.
Qed.

Lemma pi_flips_parity_witness :
  ∃ peer, pi 5 3 6 = Ok peer ∧ peer mod 2 = 1 - 5 mod 2 ∧ peer ≠ 5.
Proof.
  apply (pi_flips_parity 5 3 6); [lia|reflexivity|lia].
Defined.

Lemma pi_pairs (rank step ws : Z) :
  1 ≤ ws → ws mod 2 = 0 → 0 ≤ step → 0 ≤ rank < ws →
  ∃ peer, pi rank step ws = Ok peer ∧ 0 ≤ peer < ws
    ∧ pi peer step ws = Ok rank.
Proof.
  intros Hws Heven Hs Hr.
  destruct (pi_parity rank step ws Hws Heven Hs) as (peer & Hpi & Hpar).
  exists peer. split; [done|].
  destruct (pi_in_range rank step ws Hws) as (p & Hp & Hrange).
  assert (p = peer) as -> by congruence. split; [done|].
  destruct (parity_cases rank) as [Hrk|Hrk].
  - rewrite pi_even_rank in Hpi by done. injection Hpi as <-.
    rewrite pi_odd_rank by (done || lia). f_equal.
    rewrite Zminus_mod_idemp_l.
    replace (rank + rho step - rho step) with rank by lia.
    by apply Z.mod_small.
  - rewrite pi_odd_rank in Hpi by done. injection Hpi as <-.
    rewrite pi_even_rank by (done || lia). f_equal.
    rewrite Zplus_mod_idemp_l.
    replace (rank - rho step + rho step) with rank by lia.
    by apply Z.mod_small.
Qed.

(** With an even number of ranks the schedule is a pairwise exchange: at
    every step from 0 on, the partner of the partner of a rank is the rank
    itself. *)
Theorem pi_involution (rank step ws : Z) :
  1 ≤ ws → ws mod 2 = 0 → 0 ≤ step → 0 ≤ rank < ws →
  ∃ peer, pi rank step ws = Ok peer ∧ 0 ≤ peer < ws
    ∧ pi peer step ws = Ok rank.
Proof.
  intros Hws Heven Hs Hr.
  destruct (pi_pairs rank step ws Hws Heven Hs Hr) as (peer & Hpi & Hrange & Hback).
  exists peer. split; [exact Hpi|]. split; [exact Hrange | exact Hback].
Qed.

Lemma pi_involution_witness :
  ∃ peer, pi 3 2 8 = Ok peer ∧ 0 ≤ peer < 8 ∧ pi peer 2 8 = Ok 3.
Proof.
  apply (pi_involution 3 2 8); [lia|reflexivity|lia|lia].
Defined.

(** With an odd number of ranks the schedule is no pairwise exchange: among
    three ranks, rank 2 sends to rank 0 at step 0 while rank 0 sends to
    rank 1. *)
Example pi_three_ranks : pi 2 0 3 = Ok 0 ∧ pi 0 0 3 = Ok 1.
Proof. by split. Qed.

(** [pi] outside its intended arguments: no world size makes it fail but 0,
    where it raises [ZeroDivisionError]; a positive world size brings any
    integer rank, negative ones too, into [[0, world_size)]; a negative
    world size gives results in [(world_size, 0]]. *)
Theorem pi_edge_behaviour (rank step ws : Z) :
  pi rank step 0 = Raise ZeroDivisionError
  ∧ (1 ≤ ws → ∃ p, pi rank step ws = Ok p ∧ 0 ≤ p < ws)
  ∧ (ws < 0 → ∃ p, pi rank step ws = Ok p ∧ ws < p ≤ 0).
Proof.
  split; [|split].
  - unfold pi, mod_. simpl. by destruct (rank mod 2 =? 0).
  - apply pi_in_range.
  - intros Hws. unfold pi, mod_.
    destruct (Z.eqb_spec ws 0) as [?|_]; [lia|].
    destruct (rank mod 2 =? 0); eexists; (split; [done|]);
      apply Z.mod_neg_bound; lia.
Qed.

Lemma pi_edge_behaviour_witness :
  (∃ p, pi (-7) 2 4 = Ok p ∧ 0 ≤ p < 4)
  ∧ (∃ p, pi 3 1 (-4) = Ok p ∧ -4 < p ≤ 0).
Proof.
  split.
  - apply (pi_edge_behaviour (-7) 2 4). lia.
  - apply (pi_edge_behaviour 3 1 (-4)). lia.
Defined.

(** ** Further properties of the volume matrix *)













(** ** More on the steps and on the matrix bounds *)




(** A loop in which an iteration can only go on or raise [e], and in which
    one of the iterations does raise [e], raises [e]. *)
Lemma for_each_raise {A St : Type} (body : A → St → result St)
    (P : St → Prop) (e : exn) xs x :
  x ∈ xs →
  (∀ y s, y ∈ xs → P s →
     (∃ s', body y s = Ok s' ∧ P s') ∨ body y s = Raise e) →
  (∀ s, P s → body x s = Raise e) →
  ∀ s, P s → for_each body xs s = Raise e.
Proof.
  intros Hx Hany Hone. induction xs as [|y xs IH]; intros s Hs; simpl.
  - by apply not_elem_of_nil in Hx.
  - destruct (Hany y s ltac:(left) Hs) as [(s' & Hb & Hs')|Hb];
      rewrite Hb; simpl; [|done].
    apply elem_of_cons in Hx as [->|Hx].
    + rewrite (Hone s Hs) in Hb. discriminate Hb.
    + apply IH; [done| |done]. intros z s0 Hz. apply Hany. by right.
Qed.

Lemma np_index_beyond (len : nat) (i : Z) :
  Z.of_nat len ≤ i → np_index len i = Raise IndexError.
Proof.
  intros Hi. unfold np_index.
  destruct (Z.ltb_spec i (Z.of_nat len)); [lia|]. rewrite andb_false_r.
  destruct (Z.ltb_spec i 0); [lia|]. by rewrite andb_false_r.
Qed.

Lemma matrix_iadd_cases (m : matrix) (k : nat) (i j : Z) (v : Q) :
  shape m k → 0 ≤ i → 0 ≤ j →
  (∃ m', matrix_iadd m i j v = Ok m' ∧ shape m' k)
  ∨ matrix_iadd m i j v = Raise IndexError.
Proof.
  intros Hsh Hi Hj.
  destruct (Z.lt_ge_cases i (Z.of_nat k)) as [Hik|Hik].
  - destruct (Z.lt_ge_cases j (Z.of_nat k)) as [Hjk|Hjk].
    + left.
      destruct (matrix_iadd_spec m k (Z.to_nat i) (Z.to_nat j) v Hsh
                  ltac:(lia) ltac:(lia)) as (m' & Hm' & Hsh' & _).
      rewrite !Z2Nat.id in Hm' by done. by exists m'.
    + right. destruct Hsh as [Hlen Hrows]. unfold matrix_iadd.
      replace i with (Z.of_nat (Z.to_nat i)) by lia.
      rewrite np_index_in_range by lia. simpl.
      destruct (lookup_lt_is_Some_2 m (Z.to_nat i) ltac:(lia)) as [row Hrow].
      rewrite Hrow. rewrite np_index_beyond; [done|].
      rewrite (Hrows _ _ Hrow). done.
  - right. destruct Hsh as [Hlen _]. unfold matrix_iadd.
    rewrite np_index_beyond; [done|]. by rewrite Hlen.
Qed.

(** [accumulate_step] on an array with fewer rows and columns than there are
    ranks raises [IndexError]: at the latest when it reaches the first rank
    without a row. *)
Theorem accumulate_step_small_matrix (m : matrix) (k : nat) (ws s : Z) (v : Q) :
  shape m k → Z.of_nat k < ws →
  accumulate_step m ws s v = Raise IndexError.
Proof.
  intros Hsh Hk. unfold accumulate_step.
  apply (for_each_raise _ (λ m', shape m' k) IndexError _ (Z.of_nat k));
    [apply elem_of_range; lia| | |done].
  - intros rank mj Hrank Hshj. apply elem_of_range in Hrank.
    destruct (pi_in_range rank s ws ltac:(lia)) as (p & -> & Hp). simpl.
    apply matrix_iadd_cases; [done|lia..].
  - intros mj [Hlen _].
    destruct (pi_in_range (Z.of_nat k) s ws ltac:(lia)) as (p & -> & Hp). simpl.
    unfold matrix_iadd. rewrite np_index_beyond; [done|]. by rewrite Hlen.
Qed.

Lemma accumulate_step_small_matrix_witness :
  accumulate_step [[0%Q; 0%Q]; [0%Q; 0%Q]] 4 0 1%Q = Raise IndexError.
Proof.
  apply (accumulate_step_small_matrix _ 2 4 0 1%Q); [|lia].
  split; [reflexivity|].
  intros i row Hrow. destruct i as [|[|i]]; simpl in Hrow.
  - by injection Hrow as <-.
  - by injection Hrow as <-.
  - discriminate Hrow.
Defined.

(** ** Round records *)

(** A loop whose every iteration appends one entry to a log appends one
    entry per element, in order. *)
Lemma for_each_log {A St E : Type} (body : A → St → result St)
    (log : St → list E) (R : A → E → Prop) xs :
  (∀ x s s', body x s = Ok s' → ∃ e, log s' = log s ++ [e] ∧ R x e) →
  ∀ s s', for_each body xs s = Ok s' →
    ∃ es, log s' = log s ++ es ∧ Forall2 R xs es.
Proof.
  intros Hstep. induction xs as [|x xs IH]; intros s s'; simpl.
  - intros [= <-]. exists []. by rewrite app_nil_r.
  - destruct (body x s) as [s1|] eqn:Hb; simpl; [|done]. intros Hrest.
    destruct (Hstep _ _ _ Hb) as (e & Hlog & He).
    destruct (IH _ _ Hrest) as (es & Hlog' & Hes).
    exists (e :: es). split; [|by constructor].
    by rewrite Hlog', Hlog, <- app_assoc.
Qed.

Lemma pred_mod n r : (r - 1 + n) mod n = (r - 1) mod n.
Proof.
  replace (r - 1 + n) with (r - 1 + 1 * n) by lia. apply Z_mod_plus_full.
Qed.

Lemma rs_send_row n cb k h r acc acc' :
  1 ≤ n → rs_send n k cb h r acc = Ok acc' →
  ∃ srow, acc'.2 = acc.2 ++ [srow]
    ∧ process srow = r ∧ send_to srow = (r + 1) mod n
    ∧ recv_from srow = (r - 1) mod n ∧ send_chunk srow = (r - k) mod n
    ∧ bytes_sent srow = cb.
Proof.
  intros Hn. destruct acc as [[H T] rows]. unfold rs_send.
  rewrite !mod_ok by done. intros Hrun. inv_binds Hrun.
  injection Hrun as <-. simpl. eexists. split; [done|]. simpl.
  by rewrite pred_mod.
Qed.

Lemma rs_recv_row n cb k T srow acc acc' :
  1 ≤ n → rs_recv n k cb T srow acc = Ok acc' →
  ∃ rw, acc'.2 = acc.2 ++ [rw]
    ∧ sent rw = srow ∧ recv_chunk rw = (process srow - k - 1) mod n
    ∧ bytes_recv rw = cb.
Proof.
  intros Hn. destruct acc as [[[h H] LR] rows]. unfold rs_recv.
  rewrite !mod_ok by done. intros Hrun. inv_binds Hrun.
  injection Hrun as <-. simpl. by eexists.
Qed.

(** Whatever the state, a round of reduce-scatter that ends normally renders
    one table: row [r] sends chunk [(r - k) mod n] to [r + 1] and receives
    chunk [(r - k - 1) mod n] from [r - 1]. *)
Lemma rs_round_table n cb k st st' :
  1 ≤ n → rs_round n cb k st = Ok st' →
  ∃ entry, rendered st' = rendered st ++ [entry]
    ∧ round_table n cb (λ k r, (r - k) mod n) (λ k r, (r - k - 1) mod n) k entry.
Proof.
  intros Hn. unfold rs_round. intros Hrun.
  destruct (for_each (rs_send n k cb (st_heap st)) (range n) (holdings st, ∅, []))
    as [[[H T] srows]|] eqn:Hsend; simpl in Hrun; [|done].
  destruct (for_each (rs_recv n k cb T) srows (st_heap st, H, last_received st, []))
    as [[[[h' H'] LR'] rows]|] eqn:Hrecv; simpl in Hrun; [|done].
  injection Hrun as <-. simpl. eexists. split; [done|]. split; [done|]. simpl.
  apply (for_each_log _ (λ a, a.2)
    (λ r srow, process srow = r ∧ send_to srow = (r + 1) mod n
       ∧ recv_from srow = (r - 1) mod n ∧ send_chunk srow = (r - k) mod n
       ∧ bytes_sent srow = cb)) in Hsend as (srows' & Hs & Hsrows);
    [|intros r a a'; by apply rs_send_row].
  apply (for_each_log _ (λ a, a.2)
    (λ srow rw, sent rw = srow ∧ recv_chunk rw = (process srow - k - 1) mod n
       ∧ bytes_recv rw = cb)) in Hrecv as (rows' & Hr & Hrows);
    [|intros r a a'; by apply rs_recv_row].
  simpl in Hs, Hr. subst srows' rows'.
  eapply Forall2_trans; [|exact Hsrows|exact Hrows].
  intros r srow rw (Hp & Hto & Hfrom & Hsc & Hbs) (Hsent & Hrc & Hbr).
  unfold ring_record. rewrite Hsent. rewrite Hp in Hrc. done.
Qed.

(** The round records of reduce-scatter: for [num_procs >= 1] the simulation
    renders the steps [0, ..., num_procs - 2] in order, each with one row per
    process in rank order; at step [k] process [r] sends chunk
    [(r - k) mod num_procs] to [(r + 1) mod num_procs] and receives chunk
    [(r - k - 1) mod num_procs] from [(r - 1) mod num_procs], and
    [vector_size // num_procs] bytes go each way. *)
Theorem reduce_scatter_round_records (num_procs vector_size : Z) :
  1 ≤ num_procs →
  ∃ st, simulate_reduce_scatter num_procs vector_size = Ok st
    ∧ Forall2
        (round_table num_procs (vector_size / num_procs)
           (λ k r, (r - k) mod num_procs) (λ k r, (r - k - 1) mod num_procs))
        (range (num_procs - 1)) (rendered st).
Proof.
  intros Hn. unfold simulate_reduce_scatter.
  destruct (reduce_scatter_steps_spec num_procs vector_size (num_procs - 1))
    as (st & Hrun & _); [lia..|].
  exists st. split; [done|].
  revert Hrun. unfold reduce_scatter_steps, floordiv.
  destruct (Z.eqb_spec num_procs 0) as [?|_]; [lia|]. simpl.
  destruct (initial_holdings num_procs) as [h H]. intros Hrun.
  apply (for_each_log _ rendered
    (round_table num_procs (vector_size / num_procs)
       (λ k r, (r - k) mod num_procs) (λ k r, (r - k - 1) mod num_procs)))
    in Hrun as (es & Hlog & Hes); [by rewrite Hlog|].
  intros k s s'. by apply rs_round_table.
Qed.

Lemma reduce_scatter_round_records_witness :
  ∃ st, simulate_reduce_scatter 4 4096 = Ok st
    ∧ Forall2
        (round_table 4 (4096 / 4) (λ k r, (r - k) mod 4) (λ k r, (r - k - 1) mod 4))
        (range (4 - 1)) (rendered st).
Proof. apply (reduce_scatter_round_records 4 4096). lia. Defined.

Lemma ag_send_row n cb H LR r acc acc' :
  1 ≤ n → ag_send n cb H LR r acc = Ok acc' →
  ∃ srow, acc'.2 = acc.2 ++ [srow]
    ∧ process srow = r ∧ send_to srow = (r + 1) mod n
    ∧ recv_from srow = (r - 1) mod n
    ∧ LR !! r = Some (send_chunk srow)
    ∧ bytes_sent srow = cb.
Proof.
  intros Hn. destruct acc as [[h T] rows]. unfold ag_send.
  rewrite !mod_ok by done. intros Hrun. inv_binds Hrun.
  match goal with Hd : deepcopy _ _ = Ok ?p |- _ => destruct p as [h' l'] end.
  inv_binds Hrun. injection Hrun as <-. simpl. eexists. split; [done|]. simpl.
  rewrite pred_mod.
  match goal with Hg : getitem LR r = Ok _ |- _ =>
    unfold getitem in Hg; destruct (LR !! r); [injection Hg as ->|done] end.
  done.
Qed.

Lemma ag_recv_row cb h T srow acc acc' :
  ag_recv cb h T srow acc = Ok acc' →
  ∃ rw tr, acc'.2 = acc.2 ++ [rw]
    ∧ sent rw = srow ∧ T !! process srow = Some tr
    ∧ recv_chunk rw = chunk_idx tr ∧ bytes_recv rw = cb.
Proof.
  destruct acc as [[H LR] rows]. unfold ag_recv. intros Hrun. inv_binds Hrun.
  injection Hrun as <-. simpl.
  match goal with Hg : getitem T _ = Ok ?t |- _ =>
    unfold getitem in Hg; destruct (T !! process srow) as [tr|];
      [injection Hg as ->|done] end.
  by eexists _, _.
Qed.

(** A round of allgather from a state of the simulation renders one table:
    row [r] sends chunk [(r + 1 - k) mod n] and receives chunk
    [(r - k) mod n]. *)
Lemma ag_round_table n cb k st st' :
  1 ≤ n → 0 ≤ k → ag_inv n k st → ag_round n cb k st = Ok st' →
  ∃ entry, rendered st' = rendered st ++ [entry]
    ∧ round_table n cb (λ k r, (r + 1 - k) mod n) (λ k r, (r - k) mod n) k entry.
Proof.
  intros Hn Hk Hinv. unfold ag_round.
  destruct (ag_send_loop n cb k st Hn Hk Hinv)
    as (h & T & srows & Hsend & _ & HT & _ & _).
  rewrite Hsend. simpl. intros Hrun.
  destruct (for_each (ag_recv cb h T) srows (holdings st, last_received st, []))
    as [[[H' LR'] rows]|] eqn:Hrecv; simpl in Hrun; [|done].
  injection Hrun as <-. simpl. eexists. split; [done|]. split; [done|]. simpl.
  destruct Hinv as (_ & _ & _ & Hlast).
  apply (for_each_log _ (λ a, a.2)
    (λ r srow, process srow = r ∧ send_to srow = (r + 1) mod n
       ∧ recv_from srow = (r - 1) mod n
       ∧ last_received st !! r = Some (send_chunk srow)
       ∧ bytes_sent srow = cb)) in Hsend as (srows' & Hs & Hsrows);
    [|intros r a a'; by apply ag_send_row].
  apply (for_each_log _ (λ a, a.2)
    (λ srow rw, ∃ tr, sent rw = srow ∧ T !! process srow = Some tr
       ∧ recv_chunk rw = chunk_idx tr ∧ bytes_recv rw = cb))
    in Hrecv as (rows' & Hr & Hrows).
  2: { intros r a a' Hstep.
       destruct (ag_recv_row _ _ _ _ _ _ Hstep) as (rw & tr & ? & ?).
       exists rw. split; [done|]. by exists tr. }
  simpl in Hs, Hr. subst srows' rows'.
  assert (Forall2 (λ r srow, 0 ≤ r < n ∧ process srow = r
            ∧ send_to srow = (r + 1) mod n ∧ recv_from srow = (r - 1) mod n
            ∧ last_received st !! r = Some (send_chunk srow)
            ∧ bytes_sent srow = cb) (range n) srows) as Hsrows'.
  { apply Forall2_same_length_lookup. split; [by eapply Forall2_length|].
    intros i r srow Hr Hsrow. split.
    - apply range_lookup in Hr. lia.
    - exact (Forall2_lookup_lr _ _ _ _ _ _ Hsrows Hr Hsrow). }
  eapply Forall2_trans; [|exact Hsrows'|exact Hrows].
  intros r srow rw (Hr & Hp & Hto & Hfrom & Hsc & Hbs)
    (tr & Hsent & Htr & Hrc & Hbr).
  unfold ring_record. rewrite Hsent.
  rewrite Hlast in Hsc by done. injection Hsc as Hsc.
  rewrite Hp in Htr.
  destruct (HT ((r - 1) mod n) (mod_range n (r - 1) Hn)) as (l' & HTr & _).
  rewrite succ_pred_mod, recv_index_eq in HTr by done.
  rewrite HTr in Htr. injection Htr as <-. simpl in Hrc.
  repeat split; try done. rewrite Hrc. f_equal. lia.
Qed.

(** The round records of allgather: started from the final state of
    reduce-scatter, the simulation renders the steps [0, ..., num_procs - 2]
    in order, one row per process; at step [k] process [r] sends chunk
    [(r + 1 - k) mod num_procs] to [(r + 1) mod num_procs] and receives
    chunk [(r - k) mod num_procs] from [(r - 1) mod num_procs]. *)
Theorem allgather_round_records (num_procs vector_size : Z) :
  1 ≤ num_procs →
  ∃ st1 st,
    simulate_reduce_scatter num_procs vector_size = Ok st1
    ∧ simulate_allgather num_procs vector_size
        (st_heap st1) (holdings st1) (last_received st1) = Ok st
    ∧ Forall2
        (round_table num_procs (vector_size / num_procs)
           (λ k r, (r + 1 - k) mod num_procs) (λ k r, (r - k) mod num_procs))
        (range (num_procs - 1)) (rendered st).
Proof.
  intros Hn.
  destruct (reduce_scatter_steps_spec num_procs vector_size (num_procs - 1))
    as (st1 & Hrun1 & Hinv1); [lia..|].
  exists st1.
  destruct (allgather_steps_spec num_procs vector_size 0 st1)
    as (st0 & Hrun0 & Hinv0); [lia..|done|].
  unfold simulate_allgather. revert Hrun0. unfold allgather_steps, floordiv.
  destruct (Z.eqb_spec num_procs 0) as [?|_]; [lia|]. simpl.
  destruct (copy_holdings (holdings st1) (st_heap st1)) as [[h' H']|];
    simpl; [|done].
  intros [= <-].
  destruct (for_each_inv (ag_round num_procs (vector_size / num_procs))
    (λ j st, ag_inv num_procs (Z.of_nat j) st
       ∧ Forall2
           (round_table num_procs (vector_size / num_procs)
              (λ k r, (r + 1 - k) mod num_procs) (λ k r, (r - k) mod num_procs))
           (range (Z.of_nat j)) (rendered st))
    (range (num_procs - 1)) (State h' H' (last_received st1) []))
    as (st & Hrun & _ & Htables).
  - split; [done|]. constructor.
  - intros j k s Hk (Hinv & Htab). apply range_lookup in Hk as [-> Hj].
    destruct (ag_round_spec num_procs (vector_size / num_procs) (Z.of_nat j) s)
      as (s' & Hround & Hinv'); [lia..|done|].
    exists s'. split; [done|].
    replace (Z.of_nat (S j)) with (Z.of_nat j + 1) by lia.
    split; [done|].
    destruct (ag_round_table num_procs _ (Z.of_nat j) s s' Hn ltac:(lia) Hinv Hround)
      as (entry & -> & Hentry).
    rewrite range_succ by lia. apply Forall2_app; [done|]. by constructor.
  - exists st. split; [done|]. split; [done|].
    rewrite range_length, Z2Nat.id in Htables by lia. done.
Qed.

Lemma allgather_round_records_witness :
  ∃ st1 st,
    simulate_reduce_scatter 3 10 = Ok st1
    ∧ simulate_allgather 3 10 (st_heap st1) (holdings st1) (last_received st1)
      = Ok st
    ∧ Forall2
        (round_table 3 (10 / 3) (λ k r, (r + 1 - k) mod 3) (λ k r, (r - k) mod 3))
        (range (3 - 1)) (rendered st).
Proof. apply (allgather_round_records 3 10). lia. Defined.

(** ** Ledgers *)

(** Reduce-scatter moves chunk objects and never copies them: after [k] of
    its rounds there are still exactly [num_procs] chunk objects, the ledgers
    are those of the ranks, every ledger holds exactly one chunk, process
    [r] the chunk of index [(r - k) mod num_procs], which is the index that
    [last_received] records for it, and no chunk index and no chunk object is
    held twice. *)
Theorem reduce_scatter_one_chunk_each (num_procs vector_size k : Z) :
  1 ≤ num_procs → 0 ≤ k ≤ num_procs - 1 →
  ∃ st, reduce_scatter_steps num_procs vector_size (range k) = Ok st
    ∧ length (st_heap st) = Z.to_nat num_procs
    ∧ dom (holdings st) = full_set num_procs
    ∧ (∀ r, 0 ≤ r < num_procs →
         ∃ ldg l, holdings st !! r = Some ldg ∧ size ldg = 1%nat
           ∧ last_received st !! r = Some ((r - k) mod num_procs)
           ∧ ldg !! ((r - k) mod num_procs) = Some l
           ∧ st_heap st !! l
             = Some (Chunk ((r - k) mod num_procs)
                       (span num_procs ((r - k) mod num_procs) k)))
    ∧ (∀ r r' i i' l l' c c',
         holds st r i l c → holds st r' i' l' c' → i = i' ∨ l = l' →
         r = r' ∧ i = i' ∧ l = l').
Proof.
  intros Hn Hk.
  destruct (reduce_scatter_steps_spec num_procs vector_size k)
    as (st & Hrun & Hinv); [lia..|].
  exists st. split; [done|].
  destruct Hinv as (Hlen & Hheap & Hhold & Hdom & Hlast).
  split; [done|]. split; [|split].
  - apply set_eq. intros r. rewrite elem_of_dom, elem_of_full_set.
    split; [apply Hdom|]. intros Hr. rewrite Hhold by done. by eexists.
  - intros r Hr. eexists _, _. split; [by apply Hhold|].
    split; [apply map_size_singleton|]. split; [by apply Hlast|].
    split; [apply lookup_singleton_eq|].
    apply Hheap, mod_range. lia.
  - intros r r' i i' l l' c c' (ldg & Hldg & Hl & _) (ldg' & Hldg' & Hl' & _) Hsame.
    pose proof (Hdom r ltac:(by eexists)) as Hr.
    pose proof (Hdom r' ltac:(by eexists)) as Hr'.
    rewrite Hhold in Hldg, Hldg' by done.
    injection Hldg as <-. injection Hldg' as <-.
    apply lookup_singleton_Some in Hl as [Hi <-].
    apply lookup_singleton_Some in Hl' as [Hi' <-].
    pose proof (mod_range num_procs (r - k) Hn).
    pose proof (mod_range num_procs (r' - k) Hn).
    assert (i = i') as <- by (destruct Hsame; lia).
    split; [|split; [done|congruence]].
    rewrite <- Hi' in Hi. apply (mod_eq_small num_procs) in Hi; lia.
Qed.

Lemma reduce_scatter_one_chunk_each_witness :
  ∃ st, reduce_scatter_steps 5 100 (range 2) = Ok st
    ∧ length (st_heap st) = 5%nat
    ∧ ∃ ldg l, holdings st !! 1 = Some ldg ∧ size ldg = 1%nat
        ∧ ldg !! ((1 - 2) mod 5) = Some l.
Proof.
  destruct (reduce_scatter_one_chunk_each 5 100 2 ltac:(lia) ltac:(lia))
    as (st & Hrun & Hlen & _ & Hone & _).
  exists st. split; [exact Hrun|]. split; [exact Hlen|].
  destruct (Hone 1 ltac:(lia)) as (ldg & l & H1 & H2 & _ & H3 & _).
  exists ldg, l. split; [exact H1|]. split; [exact H2 | exact H3].
Defined.

Lemma ag_recv_keeps_entries cb h T srow acc acc' :
  ag_recv cb h T srow acc = Ok acc' →
  ∀ r ldg i l, acc.1.1 !! r = Some ldg → ldg !! i = Some l →
    ∃ ldg', acc'.1.1 !! r = Some ldg' ∧ ldg' !! i = Some l.
Proof.
  destruct acc as [[H LR] rows]. unfold ag_recv. intros Hrun. inv_binds Hrun.
  injection Hrun as <-. simpl. intros r ldg i l Hldg Hl.
  match goal with Hg : getitem H _ = Ok ?x |- _ =>
    unfold getitem in Hg; destruct (H !! process srow) as [ldg0|] eqn:Hp;
      [injection Hg as <-|done] end.
  destruct (decide (r = process srow)) as [->|Hne].
  - rewrite lookup_insert_eq. eexists. split; [done|].
    assert (ldg0 = ldg) as -> by congruence.
    match goal with |- context [ldg !! ?ri] =>
      destruct (ldg !! ri) eqn:Hri; [done|] end.
    rewrite lookup_insert_ne; [done|]. congruence.
  - rewrite lookup_insert_ne by done. by exists ldg.
Qed.

(** In allgather a ledger only grows: whatever the state, a round that ends
    normally leaves every ledger entry where it was, on the same chunk
    object, and the object unchanged. *)
Theorem allgather_round_keeps_entries (n cb k : Z) (st st' : state) :
  ag_round n cb k st = Ok st' →
  ∀ r i l c, holds st r i l c → holds st' r i l c.
Proof.
  intros Hround r i l c (ldg & Hldg & Hl & Hc).
  pose proof (ag_round_prefix _ _ _ _ _ Hround) as Hpre.
  revert Hround. unfold ag_round. intros Hrun.
  destruct (for_each (ag_send n cb (holdings st) (last_received st))
              (range n) (st_heap st, ∅, []))
    as [[[h T] rows]|] eqn:Hsend; simpl in Hrun; [|done].
  destruct (for_each (ag_recv cb h T) rows (holdings st, last_received st, []))
    as [[[H' LR'] out]|] eqn:Hrecv; simpl in Hrun; [|done].
  injection Hrun as <-. simpl in *.
  assert (∀ r ldg i l, holdings st !! r = Some ldg → ldg !! i = Some l →
            ∃ ldg', H' !! r = Some ldg' ∧ ldg' !! i = Some l) as Hkept.
  { refine (for_each_rel (ag_recv cb h T)
      (λ a a', ∀ r ldg i l, a.1.1 !! r = Some ldg → ldg !! i = Some l →
         ∃ ldg', a'.1.1 !! r = Some ldg' ∧ ldg' !! i = Some l)
      rows _ _ _ _ _ Hrecv).
    - intros a r0 ldg0 i0 l0 ??. by exists ldg0.
    - intros a1 a2 a3 H12 H23 r0 ldg0 i0 l0 H1 H2.
      destruct (H12 _ _ _ _ H1 H2) as (ldg1 & ? & ?). by eapply H23.
    - intros srow a a' _. apply ag_recv_keeps_entries. }
  destruct (Hkept r ldg i l Hldg Hl) as (ldg' & Hldg' & Hl').
  exists ldg'. split; [done|]. split; [done|]. simpl.
  by eapply prefix_lookup_Some.
Qed.

Lemma allgather_round_keeps_entries_witness :
  let st := State [Chunk 0 {[0]}; Chunk 1 {[1]}]
              {[ 0 := {[ 0 := 0%nat ]}; 1 := {[ 1 := 1%nat ]} ]}
              {[ 0 := 0; 1 := 1 ]} [] in
  ∃ st', ag_round 2 4 0 st = Ok st'
    ∧ ∀ r i l c, holds st r i l c → holds st' r i l c.
Proof.
  intros st. destruct (ag_round 2 4 0 st) as [st'|e] eqn:Hround.
  - exists st'. split; [reflexivity|].
    exact (allgather_round_keeps_entries 2 4 0 st st' Hround).
  - vm_compute in Hround. discriminate Hround.
Defined.

(** ** Degenerate rings and missing keys *)

Lemma range_nil n : n ≤ 0 → range n = [].
Proof. intros Hn. unfold range. by apply seqZ_nil. Qed.

Lemma range_cons n : 0 < n → range n = 0 :: seqZ 1 (n - 1).
Proof. intros Hn. unfold range. by rewrite seqZ_cons. Qed.

(** The rings without a round.  Zero processes make both simulations fail on
    the division for the chunk size, before anything else.  A negative
    number of processes is not refused: reduce-scatter returns empty ledgers.
    With one process reduce-scatter returns the initial state, where process
    0 holds chunk 0 with itself as only contributor, which is already every
    rank; and neither simulation renders a round when there is at most one
    process: allgather then only copies the ledgers and does not look into
    [last_received]. *)
Theorem ring_without_rounds (vector_size : Z) :
  simulate_reduce_scatter 0 vector_size = Raise ZeroDivisionError
  ∧ (∀ h H LR, simulate_allgather 0 vector_size h H LR = Raise ZeroDivisionError)
  ∧ (∀ n, n < 0 → simulate_reduce_scatter n vector_size = Ok (State [] ∅ ∅ []))
  ∧ simulate_reduce_scatter 1 vector_size
    = Ok (State [Chunk 0 (full_set 1)] {[ 0 := {[ 0 := 0%nat ]} ]} {[ 0 := 0 ]} [])
  ∧ (∀ n h H LR h' H', n ≤ 1 → n ≠ 0 → copy_holdings H h = Ok (h', H') →
       simulate_allgather n vector_size h H LR = Ok (State h' H' LR [])).
Proof.
  split; [done|]. split; [done|]. split; [|split].
  - intros n Hn. unfold simulate_reduce_scatter, reduce_scatter_steps, floordiv.
    destruct (Z.eqb_spec n 0) as [?|_]; [lia|]. simpl.
    unfold initial_holdings, initial_last_received.
    by rewrite !range_nil by lia.
  - unfold simulate_reduce_scatter, reduce_scatter_steps, floordiv. simpl.
    f_equal.
  - intros n h H LR h' H' Hn Hn0 Hcopy.
    unfold simulate_allgather, allgather_steps, floordiv.
    destruct (Z.eqb_spec n 0) as [?|_]; [lia|]. simpl.
    rewrite Hcopy. simpl. by rewrite range_nil by lia.
Qed.

Lemma ring_without_rounds_witness :
  simulate_reduce_scatter (-2) 10 = Ok (State [] ∅ ∅ [])
  ∧ simulate_allgather 1 10 [Chunk 0 {[0]}] {[ 0 := {[ 0 := 0%nat ]} ]} ∅
    = Ok (State [Chunk 0 {[0]}; Chunk 0 {[0]}] {[ 0 := {[ 0 := 1%nat ]} ]} ∅ []).
Proof.
  destruct (ring_without_rounds 10) as (_ & _ & Hneg & _ & Hone).
  split.
  - apply (Hneg (-2)). lia.
  - apply Hone; [lia|lia|]. vm_compute. reflexivity.
Defined.

Lemma getitem_Some `{Countable K} {V : Type} (d : gmap K V) k v :
  d !! k = Some v → getitem d k = Ok v.
Proof. intros Hk. unfold getitem. by rewrite Hk. Qed.

Lemma getitem_None `{Countable K} {V : Type} (d : gmap K V) k :
  d !! k = None → getitem d k = Raise KeyError.
Proof. intros Hk. unfold getitem. by rewrite Hk. Qed.

(** Allgather reads [last_received[0]] and then [holdings[0]] in its first
    round: with at least two processes and no ledgers it raises [KeyError],
    whatever [last_received] holds. *)
Theorem allgather_without_ledgers (num_procs vector_size : Z) (h : heap)
    (LR : gmap Z Z) :
  2 ≤ num_procs →
  simulate_allgather num_procs vector_size h ∅ LR = Raise KeyError.
Proof.
  intros Hn. unfold simulate_allgather, allgather_steps, floordiv.
  destruct (Z.eqb_spec num_procs 0) as [?|_]; [lia|]. simpl.
  unfold copy_holdings. rewrite map_to_list_empty. simpl.
  rewrite (range_cons (num_procs - 1)) by lia. simpl.
  unfold ag_round. simpl. rewrite (range_cons num_procs) by lia. simpl.
  rewrite !mod_ok by lia. simpl.
  destruct (LR !! 0) as [v|] eqn:HLR.
  - rewrite (getitem_Some LR 0 v HLR). simpl.
    by rewrite (getitem_None (∅ : gmap Z ledger) 0) by apply lookup_empty.
  - by rewrite (getitem_None LR 0 HLR).
Qed.

Lemma allgather_without_ledgers_witness :
  simulate_allgather 4 4096 [] ∅ {[ 0 := 1 ]} = Raise KeyError.
Proof. apply (allgather_without_ledgers 4 4096 [] {[ 0 := 1 ]}). lia. Defined.

(** ** Labels *)

(** The label of a chunk carries its index and its contributors in
    increasing order, each once. *)
Theorem format_chunk_sorted (c : chunk) :
  (format_chunk c).1 = idx c
  ∧ StronglySorted Z.le (format_chunk c).2
  ∧ NoDup (format_chunk c).2
  ∧ ∀ p, p ∈ (format_chunk c).2 ↔ p ∈ contributors c.
Proof.
  unfold format_chunk. simpl. split; [done|]. split; [|split].
  - apply StronglySorted_merge_sort; apply _.
  - rewrite merge_sort_Permutation. apply NoDup_elements.
  - intros p. rewrite merge_sort_Permutation. apply elem_of_elements.
Qed.

Lemma summarize_holdings_inv (h : heap) (ldg : ledger) (out : list label) :
  summarize_holdings h ldg = Ok out →
  ∃ keys, keys ≡ₚ elements (dom ldg)
    ∧ StronglySorted Z.le keys
    ∧ length out = size ldg
    ∧ Forall2 (λ i lb, ∃ l c, ldg !! i = Some l ∧ h !! l = Some c
                              ∧ lb = format_chunk c) keys out.
Proof.
  unfold summarize_holdings. intros Hrun.
  set (keys := merge_sort Z.le (map_to_list ldg).*1) in *.
  assert (keys ≡ₚ elements (dom ldg)) as Hperm.
  { unfold keys. rewrite merge_sort_Permutation.
    apply NoDup_Permutation.
    - apply NoDup_fst_map_to_list.
    - apply NoDup_elements.
    - intros i. rewrite elem_of_elements, elem_of_dom, list_elem_of_fmap.
      split.
      + intros ([i' l] & -> & Hil). apply elem_of_map_to_list in Hil. by eexists.
      + intros [l Hl]. exists (i, l). split; [done|].
        by apply elem_of_map_to_list. }
  apply (for_each_log _ (λ out, out)
    (λ i lb, ∃ l c, ldg !! i = Some l ∧ h !! l = Some c ∧ lb = format_chunk c))
    in Hrun as (es & Hout & Hes).
  - simpl in Hout. subst es. exists keys. split; [done|].
    split; [apply StronglySorted_merge_sort; apply _|]. split; [|done].
    rewrite <- (Forall2_length _ _ _ Hes), Hperm.
    by rewrite <- size_dom.
  - intros i s s' Hstep. inv_binds Hstep. injection Hstep as <-.
    eexists. split; [done|].
    repeat match goal with
    | Hg : getitem _ _ = Ok _ |- _ =>
        unfold getitem in Hg;
        match type of Hg with context [?m !! ?k] =>
          destruct (m !! k) eqn:?; [injection Hg as ->|done] end
    | Hg : deref _ _ = Ok _ |- _ =>
        unfold deref in Hg;
        match type of Hg with context [?m !! ?k] =>
          destruct (m !! k) eqn:?; [injection Hg as ->|done] end
    end.
    by eexists _, _.
Qed.

(** The holdings shown for a process: when [summarize_holdings] returns, it
    returns one label per ledger entry, in increasing order of the ledger
    keys, each the label of the chunk stored under its key. *)
Theorem summarize_holdings_ordered (h : heap) (ldg : ledger) (out : list label) :
  summarize_holdings h ldg = Ok out →
  ∃ keys, keys ≡ₚ elements (dom ldg)
    ∧ StronglySorted Z.le keys
    ∧ length out = size ldg
    ∧ Forall2 (λ i lb, ∃ l c, ldg !! i = Some l ∧ h !! l = Some c
                              ∧ lb = format_chunk c) keys out.
Proof.
  intros Hrun.
  destruct (summarize_holdings_inv h ldg out Hrun)
    as (keys & Hperm & Hsorted & Hlen & Hlabels).
  exists keys. split; [exact Hperm|]. split; [exact Hsorted|].
  split; [exact Hlen | exact Hlabels].
Qed.

Lemma summarize_holdings_ordered_witness :
  let h := [Chunk 7 {[3; 1]}; Chunk 2 {[0]}] in
  let ldg : ledger := {[ 7 := 0%nat; 2 := 1%nat ]} in
  ∃ out keys, summarize_holdings h ldg = Ok out
    ∧ keys ≡ₚ elements (dom ldg)
    ∧ StronglySorted Z.le keys
    ∧ length out = size ldg.
Proof.
  intros h ldg. destruct (summarize_holdings h ldg) as [out|e] eqn:Hrun.
  - destruct (summarize_holdings_ordered h ldg out Hrun)
      as (keys & H1 & H2 & H3 & _).
    exists out, keys. split; [reflexivity|].
    split; [exact H1|]. split; [exact H2 | exact H3].
  - vm_compute in Hrun. discriminate Hrun.
Defined.

Lemma allgather_changes_last_received_witness :
  ∃ st1 st,
    simulate_reduce_scatter 3 10 = Ok st1
    ∧ simulate_allgather 3 10 (st_heap st1) (holdings st1) (last_received st1)
      = Ok st
    ∧ last_received st1 !! 1 = Some ((1 + 1) mod 3)
    ∧ last_received st !! 1 = Some ((1 + 2) mod 3).
Proof.
  destruct (allgather_changes_last_received 3 10 ltac:(lia))
    as (st1 & st & Hrun1 & Hrun & _ & Hlast).
  exists st1, st. split; [exact Hrun1|]. split; [exact Hrun|].
  destruct (Hlast 1 ltac:(lia)) as (H1 & H2 & _).
  split; [exact H1 | exact H2].
Defined.

(** ** The label columns of the round records *)

(** The loop rule for a loop known to end normally. *)
Lemma for_each_preserve_ix {A St : Type} (body : A → St → result St)
    (P : nat → St → Prop) xs :
  (∀ i x s s', xs !! i = Some x → P i s → body x s = Ok s' → P (S i) s') →
  ∀ s s', P 0%nat s → for_each body xs s = Ok s' → P (length xs) s'.
Proof.
  revert P. induction xs as [|x xs IH]; intros P Hstep s s' Hs; simpl.
  - by intros [= <-].
  - destruct (body x s) as [s1|] eqn:Hb; simpl; [|done].
    apply (IH (λ i, P (S i))).
    + intros i y t t' Hy. by apply (Hstep (S i)).
    + by apply (Hstep 0%nat x s).
Qed.

Lemma getitem_inv `{Countable K} {V : Type} (d : gmap K V) k v :
  getitem d k = Ok v → d !! k = Some v.
Proof. unfold getitem. destruct (d !! k); [by intros [= ->]|done]. Qed.

Lemma deref_inv (h : heap) l c : deref h l = Ok c → h !! l = Some c.
Proof. unfold deref. destruct (h !! l); [by intros [= ->]|done]. Qed.

Lemma summarize_singleton (h : heap) (i : Z) (l : ref) (c : chunk) :
  h !! l = Some c → summarize_holdings h {[ i := l ]} = Ok [format_chunk c].
Proof.
  intros Hc. unfold summarize_holdings. rewrite map_to_list_singleton. cbn.
  unfold getitem. rewrite lookup_singleton_eq. simpl.
  unfold deref. by rewrite Hc.
Qed.

Lemma rs_send_loop_labels n cb k st H T srows :
  1 ≤ n → rs_inv n k st →
  for_each (rs_send n k cb (st_heap st)) (range n) (holdings st, ∅, [])
  = Ok (H, T, srows) →
  Forall2 (λ r srow,
      send_label srow
      = format_chunk (Chunk ((r - k) mod n) (span n ((r - k) mod n) k)))
    (range n) srows.
Proof.
  intros Hn (Hlen & Hheap & Hhold & Hdom & Hlast) Hrun.
  pose proof (for_each_preserve_ix (rs_send n k cb (st_heap st))
    (λ j a, (∀ r, Z.of_nat j ≤ r → a.1.1 !! r = holdings st !! r)
      ∧ Forall2 (λ r srow,
            send_label srow
            = format_chunk (Chunk ((r - k) mod n) (span n ((r - k) mod n) k)))
          (range (Z.of_nat j)) a.2)
    (range n)) as Hloop.
  rewrite range_length in Hloop.
  destruct (Hloop) with (s := (holdings st, (∅ : gmap Z transmission),
                               ([] : list send_row))) (s' := (H, T, srows))
    as [_ Hrows]; [|by split; [|constructor]|done|].
  - intros j r [[Hj Tj] rowsj] a' Hr [Hsame Hrowsj] Hstep.
    apply range_lookup in Hr as [-> Hjn]. simpl in *.
    unfold rs_send in Hstep. rewrite !mod_ok in Hstep by done.
    inv_binds Hstep. injection Hstep as <-. simpl.
    repeat match goal with
    | Hg : getitem _ _ = Ok _ |- _ => apply getitem_inv in Hg
    | Hg : deref _ _ = Ok _ |- _ => apply deref_inv in Hg
    end.
    match goal with Hg : Hj !! Z.of_nat j = Some _ |- _ =>
      rewrite Hsame, Hhold in Hg by lia; injection Hg as <- end.
    match goal with Hg : {[ _ := _ ]} !! _ = Some _ |- _ =>
      apply lookup_singleton_Some in Hg as [_ <-] end.
    match goal with Hg : st_heap st !! _ = Some _ |- _ =>
      rewrite Hheap in Hg by (by apply mod_range); injection Hg as <- end.
    split.
    + intros r Hr. rewrite lookup_insert_ne by lia. apply Hsame. lia.
    + replace (Z.of_nat (S j)) with (Z.of_nat j + 1) by lia.
      rewrite range_succ by lia. apply Forall2_app; [done|]. by constructor.
  - by rewrite Z2Nat.id in Hrows by lia.
Qed.

Lemma rs_recv_loop_labels n cb k st H T srows h' H' LR' out :
  1 ≤ n → 0 ≤ k → rs_inv n k st →
  (∀ r, 0 ≤ r < n → H !! r = Some ∅) →
  (∀ r, 0 ≤ r < n →
     T !! ((r + 1) mod n)
     = Some (Transmission r ((r - k) mod n) (Z.to_nat ((r - k) mod n)))) →
  length srows = Z.to_nat n →
  (∀ i rw, srows !! i = Some rw → process rw = Z.of_nat i) →
  for_each (rs_recv n k cb T) srows (st_heap st, H, last_received st, [])
  = Ok (h', H', LR', out) →
  Forall2 (λ srow rw,
      sent rw = srow
      ∧ recv_label rw
        = format_chunk
            (Chunk ((process srow - (k + 1)) mod n)
               (span n ((process srow - (k + 1)) mod n) (k + 1)))
      ∧ data_held rw = [recv_label rw])
    srows out.
Proof.
  intros Hn Hk (Hlen & Hheap & Hhold & Hdom & Hlast) HH HT Hrows Hproc Hrun.
  pose proof (for_each_preserve_ix (rs_recv n k cb T)
    (λ j a, length a.1.1.1 = Z.to_nat n
      ∧ (∀ i, 0 ≤ i < n → Z.of_nat j ≤ (i + (k + 1)) mod n →
           a.1.1.1 !! Z.to_nat i = Some (Chunk i (span n i k)))
      ∧ (∀ r, Z.of_nat j ≤ r < n → a.1.1.2 !! r = Some ∅)
      ∧ Forall2 (λ srow rw,
            sent rw = srow
            ∧ recv_label rw
              = format_chunk
                  (Chunk ((process srow - (k + 1)) mod n)
                     (span n ((process srow - (k + 1)) mod n) (k + 1)))
            ∧ data_held rw = [recv_label rw])
          (take j srows) a.2)
    srows) as Hloop.
  destruct (Hloop) with (s := (st_heap st, H, last_received st, ([] : list row)))
                        (s' := (h', H', LR', out))
    as (_ & _ & _ & Hout); [| |done|].
  - intros j srow [[[hj Hj] LRj] outj] a' Hsrow (Hlenj & Hheapj & HHj & Houtj) Hstep.
    pose proof (Hproc _ _ Hsrow) as Hp.
    pose proof (lookup_lt_Some _ _ _ Hsrow) as Hjn. rewrite Hrows in Hjn.
    simpl in *. unfold rs_recv in Hstep. rewrite Hp in Hstep.
    rewrite !mod_ok in Hstep by done.
    replace (Z.of_nat j - k - 1) with (Z.of_nat j - (k + 1)) in Hstep by lia.
    set (r := Z.of_nat j) in *. set (i0 := (r - (k + 1)) mod n) in *.
    assert (0 ≤ i0 < n) as Hi0 by (by apply mod_range).
    assert ((i0 + (k + 1)) mod n = r) as Hback by (apply ring_back; lia).
    assert (T !! r = Some (Transmission ((r - 1) mod n) i0 (Z.to_nat i0))) as HTr.
    { pose proof (HT ((r - 1) mod n) (mod_range n (r - 1) Hn)) as HT'.
      rewrite succ_pred_mod in HT' by lia.
      assert (((r - 1) mod n - k) mod n = i0) as Hidx
        by (unfold i0; mod_norm; f_equal; lia).
      by rewrite HT', Hidx. }
    rewrite (getitem_Some T r _ HTr) in Hstep. simpl in Hstep.
    unfold add_contributor, deref in Hstep.
    rewrite Hheapj in Hstep by lia. simpl in Hstep.
    rewrite (getitem_Some Hj r ∅) in Hstep by (apply HHj; lia).
    simpl in Hstep.
    rewrite list_lookup_insert_eq in Hstep by lia. simpl in Hstep.
    rewrite insert_empty in Hstep.
    rewrite (summarize_singleton _ _ _
               (Chunk i0 ({[r]} ∪ span n i0 k))) in Hstep
      by (apply list_lookup_insert_eq; lia).
    simpl in Hstep. injection Hstep as <-. simpl.
    split; [by rewrite length_insert|]. split; [|split].
    + intros i Hi Hge. rewrite list_lookup_insert_ne; [apply Hheapj; lia|].
      intros Heq. assert (i = i0) as -> by lia. lia.
    + intros r' Hr'. rewrite lookup_insert_ne by lia. apply HHj. lia.
    + rewrite (take_S_r _ _ _ Hsrow). apply Forall2_app; [done|].
      constructor; [|constructor]. simpl. rewrite Hp. fold r. fold i0.
      rewrite span_succ, Hback by done. done.
  - simpl. split; [done|]. split; [|split].
    + intros i Hi _. by apply Hheap.
    + intros r Hr. apply HH. lia.
    + rewrite take_0. constructor.
  - by rewrite take_ge in Hout by done.
Qed.

(** A round of reduce-scatter from a state of the simulation: the labels
    of its table. *)
Lemma rs_round_labels n cb k st st' :
  1 ≤ n → 0 ≤ k → rs_inv n k st → rs_round n cb k st = Ok st' →
  ∃ entry, rendered st' = rendered st ++ [entry]
    ∧ Forall2 (rs_labels n k) (range n) entry.2.
Proof.
  intros Hn Hk Hinv. unfold rs_round.
  destruct (rs_send_loop n cb k st Hn Hinv)
    as (H & T & srows & Hsend & HH & _ & HT & Hrows & Hproc).
  rewrite Hsend. simpl. intros Hrun.
  destruct (for_each (rs_recv n k cb T) srows (st_heap st, H, last_received st, []))
    as [[[[h' H'] LR'] out]|] eqn:Hrecv; simpl in Hrun; [|done].
  injection Hrun as <-. simpl. eexists. split; [done|]. simpl.
  pose proof (rs_send_loop_labels _ _ _ _ _ _ _ Hn Hinv Hsend) as Hs.
  pose proof (rs_recv_loop_labels _ _ _ _ _ _ _ _ _ _ _ Hn Hk Hinv HH HT Hrows
                Hproc Hrecv) as Hr.
  assert (Forall2 (λ r srow, process srow = r
            ∧ send_label srow
              = format_chunk (Chunk ((r - k) mod n) (span n ((r - k) mod n) k)))
            (range n) srows) as Hs'.
  { apply Forall2_same_length_lookup. split; [by eapply Forall2_length|].
    intros i r srow Hri Hsrow. split.
    - apply range_lookup in Hri as [-> _]. by apply Hproc.
    - exact (Forall2_lookup_lr _ _ _ _ _ _ Hs Hri Hsrow). }
  eapply Forall2_trans; [|exact Hs'|exact Hr].
  intros r srow rw [Hp Hsl] (Hsent & Hrl & Hheld).
  unfold rs_labels. rewrite Hsent. rewrite Hp in Hrl. done.
Qed.

(** The label columns of reduce-scatter: at step [k] the row of process [r]
    shows the chunk [(r - k) mod num_procs] it sends with the contributors
    gathered so far, [{i, ..., i + k}] around the ring, the chunk
    [(r - k - 1) mod num_procs] it receives with itself added, and as its
    holdings afterwards that received chunk alone. *)
Theorem reduce_scatter_round_labels (num_procs vector_size : Z) :
  1 ≤ num_procs →
  ∃ st, simulate_reduce_scatter num_procs vector_size = Ok st
    ∧ Forall2 (λ k entry, Forall2 (rs_labels num_procs k) (range num_procs) entry.2)
        (range (num_procs - 1)) (rendered st).
Proof.
  intros Hn. unfold simulate_reduce_scatter, reduce_scatter_steps, floordiv.
  destruct (Z.eqb_spec num_procs 0) as [?|_]; [lia|]. simpl.
  destruct (rs_inv_initial num_procs) as (h & H & -> & Hinit).
  destruct (for_each_inv (rs_round num_procs (vector_size / num_procs))
    (λ j st, rs_inv num_procs (Z.of_nat j) st
       ∧ Forall2 (λ k entry,
             Forall2 (rs_labels num_procs k) (range num_procs) entry.2)
           (range (Z.of_nat j)) (rendered st))
    (range (num_procs - 1)) (State h H (initial_last_received num_procs) []))
    as (st & Hrun & _ & Htables).
  - split; [done|]. constructor.
  - intros j k s Hk (Hinv & Htab). apply range_lookup in Hk as [-> Hj].
    destruct (rs_round_spec num_procs (vector_size / num_procs) (Z.of_nat j) s)
      as (s' & Hround & Hinv'); [lia..|done|].
    exists s'. split; [done|].
    replace (Z.of_nat (S j)) with (Z.of_nat j + 1) by lia.
    split; [done|].
    destruct (rs_round_labels num_procs _ (Z.of_nat j) s s' Hn ltac:(lia)
                Hinv Hround) as (entry & -> & Hentry).
    rewrite range_succ by lia. apply Forall2_app; [done|]. by constructor.
  - exists st. split; [done|].
    rewrite range_length, Z2Nat.id in Htables by lia. done.
Qed.

Lemma reduce_scatter_round_labels_witness :
  ∃ st, simulate_reduce_scatter 4 4096 = Ok st
    ∧ Forall2 (λ k entry, Forall2 (rs_labels 4 k) (range 4) entry.2)
        (range (4 - 1)) (rendered st).
Proof. apply (reduce_scatter_round_labels 4 4096). lia. Defined.

Lemma Forall2_fmap_eq {A B : Type} (f : A → B) (l : list A) (k : list B) :
  Forall2 (λ x y, y = f x) l k → k = f <$> l.
Proof. induction 1 as [|x y l k -> _ IH]; [done|]. simpl. by rewrite IH. Qed.

Lemma ag_send_loop_labels n cb k st h T srows :
  1 ≤ n → 0 ≤ k → ag_inv n k st →
  for_each (ag_send n cb (holdings st) (last_received st))
    (range n) (st_heap st, ∅, []) = Ok (h, T, srows) →
  Forall2 (λ r srow,
      send_label srow = format_chunk (Chunk ((r + 1 - k) mod n) (full_set n)))
    (range n) srows.
Proof.
  intros Hn Hk (Hhold & Hheap & Hdom & Hlast) Hrun.
  pose proof (for_each_preserve_ix
    (ag_send n cb (holdings st) (last_received st))
    (λ j a, st_heap st `prefix_of` a.1.1
      ∧ Forall2 (λ r srow,
            send_label srow
            = format_chunk (Chunk ((r + 1 - k) mod n) (full_set n)))
          (range (Z.of_nat j)) a.2)
    (range n)) as Hloop.
  rewrite range_length in Hloop.
  destruct (Hloop) with (s := (st_heap st, (∅ : gmap Z transmission),
                               ([] : list send_row))) (s' := (h, T, srows))
    as [_ Hrows]; [|by split; [|constructor]|done|].
  - intros j r [[hj Tj] rowsj] a' Hr [Hpre Hrowsj] Hstep.
    apply range_lookup in Hr as [-> Hjn]. simpl in *.
    unfold ag_send in Hstep. rewrite !mod_ok in Hstep by done.
    inv_binds Hstep.
    match goal with Hd : deepcopy _ _ = Ok ?p |- _ =>
      destruct p as [h1 l1]; apply deepcopy_inv in Hd as (c & Hc & -> & ->) end.
    inv_binds Hstep. injection Hstep as <-. simpl.
    repeat match goal with
    | Hg : getitem _ _ = Ok _ |- _ => apply getitem_inv in Hg
    | Hg : deref _ _ = Ok _ |- _ => apply deref_inv in Hg
    end.
    match goal with Hg : last_received st !! _ = Some _ |- _ =>
      rewrite Hlast in Hg by lia; injection Hg as <- end.
    match goal with
      Hg1 : holdings st !! _ = Some ?ldg, Hg2 : ?ldg !! _ = Some _ |- _ =>
        pose proof (Hheap _ _ _ _ Hg1 Hg2) as Hfull end.
    pose proof (prefix_lookup_Some _ _ _ _ Hfull Hpre) as Hfull'.
    match goal with Hg : (hj ++ [c]) !! _ = Some _ |- _ =>
      rewrite (lookup_app_l_Some _ _ _ _ Hfull') in Hg; injection Hg as <- end.
    split; [by apply prefix_app_r|].
    replace (Z.of_nat (S j)) with (Z.of_nat j + 1) by lia.
    rewrite range_succ by lia. apply Forall2_app; [done|]. by constructor.
  - by rewrite Z2Nat.id in Hrows by lia.
Qed.

Lemma ag_recv_loop_labels n cb k st h T srows H' LR' out :
  1 ≤ n → 0 ≤ k → ag_inv n k st →
  st_heap st `prefix_of` h →
  (∀ r, 0 ≤ r < n →
     ∃ l', T !! ((r + 1) mod n) = Some (Transmission r ((r + 1 - k) mod n) l')
         ∧ h !! l' = Some (Chunk ((r + 1 - k) mod n) (full_set n))) →
  length srows = Z.to_nat n →
  (∀ i rw, srows !! i = Some rw → process rw = Z.of_nat i) →
  for_each (ag_recv cb h T) srows (holdings st, last_received st, [])
  = Ok (H', LR', out) →
  Forall2 (λ srow rw,
      sent rw = srow
      ∧ recv_label rw
        = format_chunk (Chunk ((process srow - k) mod n) (full_set n))
      ∧ ∃ keys, StronglySorted Z.le keys ∧ NoDup keys
          ∧ (∀ i, i ∈ keys ↔
                  ∃ j, 0 ≤ j ≤ k + 1 ∧ i = (process srow + 1 - j) mod n)
          ∧ data_held rw = (λ i, format_chunk (Chunk i (full_set n))) <$> keys)
    srows out.
Proof.
  intros Hn Hk (Hhold & Hheap & Hdom & Hlast) Hpre HT Hrows Hproc Hrun.
  pose proof (for_each_preserve_ix (ag_recv cb h T)
    (λ j a, (∀ r, Z.of_nat j ≤ r → a.1.1 !! r = holdings st !! r)
      ∧ Forall2 (λ srow rw,
            sent rw = srow
            ∧ recv_label rw
              = format_chunk (Chunk ((process srow - k) mod n) (full_set n))
            ∧ ∃ keys, StronglySorted Z.le keys ∧ NoDup keys
                ∧ (∀ i, i ∈ keys ↔
                        ∃ j, 0 ≤ j ≤ k + 1 ∧ i = (process srow + 1 - j) mod n)
                ∧ data_held rw
                  = (λ i, format_chunk (Chunk i (full_set n))) <$> keys)
          (take j srows) a.2)
    srows) as Hloop.
  destruct (Hloop) with (s := (holdings st, last_received st, ([] : list row)))
                        (s' := (H', LR', out))
    as (_ & Hout); [| |done|].
  - intros j srow [[Hj LRj] outj] a' Hsrow (Hsame & Houtj) Hstep.
    pose proof (Hproc _ _ Hsrow) as Hp.
    pose proof (lookup_lt_Some _ _ _ Hsrow) as Hjn. rewrite Hrows in Hjn.
    simpl in *. unfold ag_recv in Hstep. rewrite Hp in Hstep.
    set (r := Z.of_nat j) in *.
    destruct (HT ((r - 1) mod n) (mod_range n (r - 1) Hn)) as (l' & HTr & Hl').
    rewrite succ_pred_mod, recv_index_eq in HTr by lia.
    rewrite recv_index_eq in Hl'.
    set (ri := (r + 1 - (k + 1)) mod n) in *.
    rewrite (getitem_Some T r _ HTr) in Hstep. simpl in Hstep.
    destruct (Hhold r ltac:(lia)) as (ldg & Hldg & Hkeys).
    rewrite (getitem_Some Hj r ldg) in Hstep by (by rewrite Hsame by lia).
    simpl in Hstep.
    set (ldg' := match ldg !! ri with
                 | Some _ => ldg
                 | None => <[ri := l']> ldg
                 end) in *.
    assert (∀ i, is_Some (ldg' !! i) ↔ i = ri ∨ is_Some (ldg !! i)) as Hkeys'.
    { intros i. unfold ldg'. destruct (ldg !! ri) as [l0|] eqn:Hri.
      - split; [by right|]. intros [->|?]; [by eexists|done].
      - rewrite lookup_insert_is_Some'.
        split; (intros [?|?]; [by left|by right]). }
    assert (∀ i l, ldg' !! i = Some l → h !! l = Some (Chunk i (full_set n)))
      as Hvals'.
    { intros i l. unfold ldg'. destruct (ldg !! ri) as [l0|] eqn:Hri.
      - intros Hl. eapply prefix_lookup_Some; [|done]. by eapply Hheap.
      - intros Hl. apply lookup_insert_Some in Hl as [[<- <-]|[_ Hl]]; [done|].
        eapply prefix_lookup_Some; [|done]. by eapply Hheap. }
    unfold deref in Hstep. rewrite Hl' in Hstep. simpl in Hstep.
    destruct (summarize_holdings h ldg') as [held|] eqn:Hheld;
      simpl in Hstep; [|done].
    injection Hstep as <-. simpl. split.
    + intros r' Hr'. rewrite lookup_insert_ne by lia. apply Hsame. lia.
    + rewrite (take_S_r _ _ _ Hsrow). apply Forall2_app; [done|].
      constructor; [|constructor]. simpl. rewrite Hp. fold r.
      split; [done|]. split.
      { unfold ri. do 3 f_equal. lia. }
      destruct (summarize_holdings_inv h ldg' held Hheld)
        as (keys & Hperm & Hsorted & _ & Hlabels).
      exists keys. split; [done|]. split; [|split].
      * rewrite Hperm. apply NoDup_elements.
      * intros i. rewrite Hperm, elem_of_elements, elem_of_dom, Hkeys', Hkeys.
        split.
        -- intros [->|(j' & Hj' & ->)].
           ++ exists (k + 1). split; [lia|done].
           ++ exists j'. split; [lia|done].
        -- intros (j' & Hj' & ->). destruct (decide (j' = k + 1)) as [->|?].
           ++ by left.
           ++ right. exists j'. split; [lia|done].
      * apply Forall2_fmap_eq. eapply Forall2_impl; [exact Hlabels|].
        intros i lb (l & c & Hl & Hc & ->). simpl.
        rewrite (Hvals' _ _ Hl) in Hc. by injection Hc as <-.
  - simpl. split; [done|]. rewrite take_0. constructor.
  - by rewrite take_ge in Hout by done.
Qed.

(** A round of allgather from a state of the simulation: the labels of its
    table. *)
Lemma ag_round_labels n cb k st st' :
  1 ≤ n → 0 ≤ k → ag_inv n k st → ag_round n cb k st = Ok st' →
  ∃ entry, rendered st' = rendered st ++ [entry]
    ∧ Forall2 (ag_labels n k) (range n) entry.2.
Proof.
  intros Hn Hk Hinv. unfold ag_round.
  destruct (ag_send_loop n cb k st Hn Hk Hinv)
    as (h & T & srows & Hsend & Hpre & HT & Hrows & Hproc).
  rewrite Hsend. simpl. intros Hrun.
  destruct (for_each (ag_recv cb h T) srows (holdings st, last_received st, []))
    as [[[H' LR'] out]|] eqn:Hrecv; simpl in Hrun; [|done].
  injection Hrun as <-. simpl. eexists. split; [done|]. simpl.
  pose proof (ag_send_loop_labels _ _ _ _ _ _ _ Hn Hk Hinv Hsend) as Hs.
  pose proof (ag_recv_loop_labels _ _ _ _ _ _ _ _ _ _ Hn Hk Hinv Hpre HT Hrows
                Hproc Hrecv) as Hr.
  assert (Forall2 (λ r srow, process srow = r
            ∧ send_label srow
              = format_chunk (Chunk ((r + 1 - k) mod n) (full_set n)))
            (range n) srows) as Hs'.
  { apply Forall2_same_length_lookup. split; [by eapply Forall2_length|].
    intros i r srow Hri Hsrow. split.
    - apply range_lookup in Hri as [-> _]. by apply Hproc.
    - exact (Forall2_lookup_lr _ _ _ _ _ _ Hs Hri Hsrow). }
  eapply Forall2_trans; [|exact Hs'|exact Hr].
  intros r srow rw [Hp Hsl] (Hsent & Hrl & Hheld).
  unfold ag_labels. rewrite Hsent. rewrite Hp in Hrl, Hheld. done.
Qed.

(** The label columns of allgather: every chunk it shows is fully reduced;
    at step [k] the row of process [r] shows the chunk
    [(r + 1 - k) mod num_procs] sent, the chunk [(r - k) mod num_procs]
    received, and as holdings afterwards the chunks [r + 1, r, ..., r - k]
    around the ring, each once, by increasing index. *)
Theorem allgather_round_labels (num_procs vector_size : Z) :
  1 ≤ num_procs →
  ∃ st1 st,
    simulate_reduce_scatter num_procs vector_size = Ok st1
    ∧ simulate_allgather num_procs vector_size
        (st_heap st1) (holdings st1) (last_received st1) = Ok st
    ∧ Forall2 (λ k entry, Forall2 (ag_labels num_procs k) (range num_procs) entry.2)
        (range (num_procs - 1)) (rendered st).
Proof.
  intros Hn.
  destruct (reduce_scatter_steps_spec num_procs vector_size (num_procs - 1))
    as (st1 & Hrun1 & Hinv1); [lia..|].
  exists st1.
  destruct (allgather_steps_spec num_procs vector_size 0 st1)
    as (st0 & Hrun0 & Hinv0); [lia..|done|].
  unfold simulate_allgather. revert Hrun0. unfold allgather_steps, floordiv.
  destruct (Z.eqb_spec num_procs 0) as [?|_]; [lia|]. simpl.
  destruct (copy_holdings (holdings st1) (st_heap st1)) as [[h' H']|];
    simpl; [|done].
  intros [= <-].
  destruct (for_each_inv (ag_round num_procs (vector_size / num_procs))
    (λ j st, ag_inv num_procs (Z.of_nat j) st
       ∧ Forall2 (λ k entry,
             Forall2 (ag_labels num_procs k) (range num_procs) entry.2)
           (range (Z.of_nat j)) (rendered st))
    (range (num_procs - 1)) (State h' H' (last_received st1) []))
    as (st & Hrun & _ & Htables).
  - split; [done|]. constructor.
  - intros j k s Hk (Hinv & Htab). apply range_lookup in Hk as [-> Hj].
    destruct (ag_round_spec num_procs (vector_size / num_procs) (Z.of_nat j) s)
      as (s' & Hround & Hinv'); [lia..|done|].
    exists s'. split; [done|].
    replace (Z.of_nat (S j)) with (Z.of_nat j + 1) by lia.
    split; [done|].
    destruct (ag_round_labels num_procs _ (Z.of_nat j) s s' Hn ltac:(lia)
                Hinv Hround) as (entry & -> & Hentry).
    rewrite range_succ by lia. apply Forall2_app; [done|]. by constructor.
  - exists st. split; [done|]. split; [done|].
    rewrite range_length, Z2Nat.id in Htables by lia. done.
Qed.

Lemma allgather_round_labels_witness :
  ∃ st1 st,
    simulate_reduce_scatter 3 10 = Ok st1
    ∧ simulate_allgather 3 10 (st_heap st1) (holdings st1) (last_received st1)
      = Ok st
    ∧ Forall2 (λ k entry, Forall2 (ag_labels 3 k) (range 3) entry.2)
        (range (3 - 1)) (rendered st).
Proof. apply (allgather_round_labels 3 10). lia. Defined.

(** ** No sharing in allgather *)

(** A property that every iteration passes on holds when the loop ends. *)
Lemma for_each_preserve {A St : Type} (body : A → St → result St)
    (P : St → Prop) xs :
  (∀ x s s', P s → body x s = Ok s' → P s') →
  ∀ s s', P s → for_each body xs s = Ok s' → P s'.
Proof.
  intros Hstep. induction xs as [|x xs IH]; intros s s' Hs; simpl.
  - by intros [= <-].
  - destruct (body x s) as [s1|] eqn:Hb; simpl; [|done].
    apply IH. by eapply Hstep.
Qed.

Lemma copy_ledger_fresh ldg h h' ldg' :
  copy_ledger ldg h = Ok (h', ldg') →
  (length h ≤ length h')%nat
  ∧ (∀ i l, ldg' !! i = Some l → (length h ≤ l < length h')%nat)
  ∧ (∀ i1 i2 l, ldg' !! i1 = Some l → ldg' !! i2 = Some l → i1 = i2).
Proof.
  unfold copy_ledger. intros Hrun.
  refine (for_each_preserve _
    (λ a, (length h ≤ length a.1)%nat
      ∧ (∀ i l, a.2 !! i = Some l → (length h ≤ l < length a.1)%nat)
      ∧ (∀ i1 i2 l, a.2 !! i1 = Some l → a.2 !! i2 = Some l → i1 = i2))
    _ _ (h, ∅) (h', ldg') _ Hrun).
  - intros [i l] [hj out] a' (Hlen & Hfresh & Hinj) Hstep. simpl in *.
    inv_binds Hstep.
    match goal with Hd : deepcopy _ _ = Ok ?p |- _ =>
      destruct p as [h1 l1]; apply deepcopy_inv in Hd as (c & _ & -> & ->) end.
    injection Hstep as <-. simpl. rewrite length_app. simpl.
    split; [lia|]. split.
    + intros i0 l0 Hl0. apply lookup_insert_Some in Hl0 as [[_ <-]|[_ Hl0]];
        [lia|]. apply Hfresh in Hl0. lia.
    + intros i1 i2 l0 H1 H2.
      apply lookup_insert_Some in H1 as [[<- <-]|[? H1]];
        apply lookup_insert_Some in H2 as [[<- ?]|[? H2]]; try done.
      * apply Hfresh in H2. lia.
      * apply Hfresh in H1. lia.
      * by eapply Hinj.
  - simpl. split; [done|]. split; intros *; by rewrite lookup_empty.
Qed.

Lemma copy_holdings_unshared H0 h h' H' :
  copy_holdings H0 h = Ok (h', H') →
  (length h ≤ length h')%nat ∧ unshared (length h) (length h') H'.
Proof.
  unfold copy_holdings. intros Hrun.
  refine (for_each_preserve _
    (λ a, (length h ≤ length a.1)%nat ∧ unshared (length h) (length a.1) a.2)
    _ _ (h, ∅) (h', H') _ Hrun).
  - intros [r ldg] [hj out] a' (Hlen & Hfresh & Hinj) Hstep. simpl in *.
    inv_binds Hstep.
    match goal with Hd : copy_ledger _ _ = Ok ?p |- _ =>
      destruct p as [h1 ldg1];
      apply copy_ledger_fresh in Hd as (Hlen1 & Hfresh1 & Hinj1) end.
    injection Hstep as <-. simpl. split; [lia|]. split.
    + intros r0 ldg0 i l Hldg0 Hl.
      apply lookup_insert_Some in Hldg0 as [[_ <-]|[_ Hldg0]].
      * apply Hfresh1 in Hl. lia.
      * pose proof (Hfresh _ _ _ _ Hldg0 Hl). lia.
    + intros r1 ldg_1 i1 r2 ldg_2 i2 l Hr1 Hl1 Hr2 Hl2.
      apply lookup_insert_Some in Hr1 as [[<- <-]|[? Hr1]];
        apply lookup_insert_Some in Hr2 as [[<- <-]|[? Hr2]].
      * split; [done|]. by eapply Hinj1.
      * apply Hfresh1 in Hl1. pose proof (Hfresh _ _ _ _ Hr2 Hl2). lia.
      * apply Hfresh1 in Hl2. pose proof (Hfresh _ _ _ _ Hr1 Hl1). lia.
      * by eapply Hinj.
  - simpl. split; [done|]. split; intros *; by rewrite lookup_empty.
Qed.

(** The copies posted in the first loop of a round are new objects, one per
    destination. *)
Lemma ag_send_loop_fresh n cb H LR rs h0 h T rows :
  for_each (ag_send n cb H LR) rs (h0, ∅, []) = Ok (h, T, rows) →
  (length h0 ≤ length h)%nat
  ∧ (∀ d tr, T !! d = Some tr → (length h0 ≤ chunk_ref tr < length h)%nat)
  ∧ (∀ d1 d2 tr1 tr2, T !! d1 = Some tr1 → T !! d2 = Some tr2 →
       chunk_ref tr1 = chunk_ref tr2 → d1 = d2).
Proof.
  intros Hrun.
  refine (for_each_preserve _
    (λ a, (length h0 ≤ length a.1.1)%nat
      ∧ (∀ d tr, a.1.2 !! d = Some tr →
           (length h0 ≤ chunk_ref tr < length a.1.1)%nat)
      ∧ (∀ d1 d2 tr1 tr2, a.1.2 !! d1 = Some tr1 → a.1.2 !! d2 = Some tr2 →
           chunk_ref tr1 = chunk_ref tr2 → d1 = d2))
    _ _ (h0, ∅, []) (h, T, rows) _ Hrun).
  - intros r [[hj Tj] rowsj] a' (Hlen & Hfresh & Hinj) Hstep. simpl in *.
    unfold ag_send in Hstep. inv_binds Hstep.
    match goal with Hd : deepcopy _ _ = Ok ?p |- _ =>
      destruct p as [h1 l1]; apply deepcopy_inv in Hd as (c & _ & -> & ->) end.
    inv_binds Hstep. injection Hstep as <-. simpl. rewrite length_app. simpl.
    split; [lia|]. split.
    + intros d tr Htr. apply lookup_insert_Some in Htr as [[_ <-]|[_ Htr]];
        [simpl; lia|]. apply Hfresh in Htr. lia.
    + intros d1 d2 tr1 tr2 H1 H2 Heq.
      apply lookup_insert_Some in H1 as [[<- <-]|[? H1]];
        apply lookup_insert_Some in H2 as [[<- <-]|[? H2]]; try done.
      * apply Hfresh in H2. simpl in Heq. lia.
      * apply Hfresh in H1. simpl in Heq. lia.
      * by eapply Hinj.
  - simpl. split; [done|]. split; intros *; by rewrite lookup_empty.
Qed.

(** A round of allgather keeps the ledgers unshared. *)
Lemma ag_round_unshared n cb k st st' lo :
  ag_round n cb k st = Ok st' →
  (lo ≤ length (st_heap st))%nat →
  unshared lo (length (st_heap st)) (holdings st) →
  (lo ≤ length (st_heap st'))%nat
  ∧ unshared lo (length (st_heap st')) (holdings st').
Proof.
  unfold ag_round. intros Hrun Hlo [Hfresh Hinj].
  destruct (for_each (ag_send n cb (holdings st) (last_received st))
              (range n) (st_heap st, ∅, []))
    as [[[h T] rows]|] eqn:Hsend; simpl in Hrun; [|done].
  destruct (for_each (ag_recv cb h T) rows (holdings st, last_received st, []))
    as [[[H' LR'] out]|] eqn:Hrecv; simpl in Hrun; [|done].
  injection Hrun as <-. simpl.
  apply ag_send_loop_fresh in Hsend as (Hlen & HTfresh & HTinj).
  (* every entry is an old one or the copy posted for its process *)
  assert (∀ r ldg i l, H' !! r = Some ldg → ldg !! i = Some l →
            (lo ≤ l < length (st_heap st))%nat
            ∨ ∃ tr, T !! r = Some tr ∧ chunk_ref tr = l ∧ chunk_idx tr = i)
    as Horigin.
  { refine (for_each_preserve (ag_recv cb h T)
      (λ a, ∀ r ldg i l, a.1.1 !! r = Some ldg → ldg !! i = Some l →
         (lo ≤ l < length (st_heap st))%nat
         ∨ ∃ tr, T !! r = Some tr ∧ chunk_ref tr = l ∧ chunk_idx tr = i)
      rows _ (holdings st, last_received st, []) (H', LR', out) _ Hrecv).
    - intros srow [[Hj LRj] outj] a' IH Hstep. simpl in *.
      unfold ag_recv in Hstep. inv_binds Hstep. injection Hstep as <-. simpl.
      repeat match goal with
      | Hg : getitem _ _ = Ok _ |- _ =>
          unfold getitem in Hg;
          match type of Hg with context [?m !! ?key] =>
            destruct (m !! key) eqn:?; [injection Hg as ->|done] end
      end.
      intros r ldg i l Hldg Hl.
      apply lookup_insert_Some in Hldg as [[<- <-]|[_ Hldg]];
        [|by eapply IH].
      match type of Hl with context [match ?x with _ => _ end] =>
        destruct x eqn:Hpresent end; [by eapply IH|].
      apply lookup_insert_Some in Hl as [[<- <-]|[_ Hl]]; [|by eapply IH].
      right. by eexists.
    - simpl. intros r ldg i l Hldg Hl. left. by eapply Hfresh. }
  split; [lia|]. split.
  - intros r ldg i l Hldg Hl.
    destruct (Horigin _ _ _ _ Hldg Hl) as [?|(tr & Htr & <- & _)]; [lia|].
    apply HTfresh in Htr. lia.
  - intros r1 ldg1 i1 r2 ldg2 i2 l Hr1 Hl1 Hr2 Hl2.
    assert (∀ r ldg i, H' !! r = Some ldg → ldg !! i = Some l →
              (l < length (st_heap st))%nat →
              ∃ ldg0, holdings st !! r = Some ldg0 ∧ ldg0 !! i = Some l)
      as Hold.
    { clear Hr1 Hl1 Hr2 Hl2. intros r ldg i.
      refine (for_each_preserve (ag_recv cb h T)
        (λ a, ∀ ldg, a.1.1 !! r = Some ldg → ldg !! i = Some l →
           (l < length (st_heap st))%nat →
           ∃ ldg0, holdings st !! r = Some ldg0 ∧ ldg0 !! i = Some l)
        rows _ (holdings st, last_received st, []) (H', LR', out) _ Hrecv ldg).
      - intros srow [[Hj LRj] outj] a' IH Hstep. simpl in *.
        unfold ag_recv in Hstep. inv_binds Hstep. injection Hstep as <-. simpl.
        repeat match goal with
        | Hg : getitem _ _ = Ok _ |- _ =>
            unfold getitem in Hg;
            match type of Hg with context [?m !! ?key] =>
              destruct (m !! key) eqn:?; [injection Hg as ->|done] end
        end.
        intros ldg' Hldg' Hl' Hlt.
        apply lookup_insert_Some in Hldg' as [[<- <-]|[_ Hldg']];
          [|by eapply IH].
        match type of Hl' with context [match ?x with _ => _ end] =>
          destruct x eqn:Hpresent end; [by eapply IH|].
        apply lookup_insert_Some in Hl' as [[<- <-]|[_ Hl']]; [|by eapply IH].
        match goal with Htr : T !! _ = Some _ |- _ => apply HTfresh in Htr end.
        lia.
      - simpl. intros ldg0 ???. by exists ldg0. }
    destruct (Horigin _ _ _ _ Hr1 Hl1) as [Ho1|(tr1 & Htr1 & Hc1 & Hi1)];
      destruct (Horigin _ _ _ _ Hr2 Hl2) as [Ho2|(tr2 & Htr2 & Hc2 & Hi2)].
    + destruct (Hold _ _ _ Hr1 Hl1 ltac:(lia)) as (ldg01 & ? & ?).
      destruct (Hold _ _ _ Hr2 Hl2 ltac:(lia)) as (ldg02 & ? & ?).
      by eapply Hinj.
    + apply HTfresh in Htr2. lia.
    + apply HTfresh in Htr1. lia.
    + assert (r1 = r2) as -> by (eapply HTinj; [done..|congruence]).
      split; [done|]. congruence.
Qed.

(** Allgather works on copies only: when the simulation returns, every
    ledger entry refers to a chunk object created during the call, none to an
    object of the ledgers it was given, and no two entries, of one process or
    of two, refer to the same object. *)
Theorem allgather_ledgers_unshared (num_procs vector_size : Z) (h : heap)
    (H0 : gmap Z ledger) (LR : gmap Z Z) (st : state) :
  simulate_allgather num_procs vector_size h H0 LR = Ok st →
  unshared (length h) (length (st_heap st)) (holdings st).
Proof.
  unfold simulate_allgather, allgather_steps. intros Hrun. inv_binds Hrun.
  match goal with Hd : copy_holdings _ _ = Ok ?p |- _ =>
    destruct p as [h1 H1]; apply copy_holdings_unshared in Hd as (Hlen & Hcopy) end.
  simpl in Hrun.
  refine (proj2 (for_each_preserve _
    (λ s, (length h ≤ length (st_heap s))%nat
          ∧ unshared (length h) (length (st_heap s)) (holdings s))
    _ _ _ st _ Hrun)); [|done].
  intros k s s' [Hs1 Hs2] Hround. by eapply ag_round_unshared.
Qed.

Lemma allgather_ledgers_unshared_witness :
  let h := [Chunk 1 {[0; 1]}; Chunk 0 {[0; 1]}] in
  let H0 : gmap Z ledger := {[ 0 := {[ 1 := 0%nat ]}; 1 := {[ 0 := 1%nat ]} ]} in
  let LR : gmap Z Z := {[ 0 := 1; 1 := 0 ]} in
  ∃ st, simulate_allgather 2 8 h H0 LR = Ok st
    ∧ unshared (length h) (length (st_heap st)) (holdings st).
Proof.
  intros h H0 LR.
  destruct (simulate_allgather 2 8 h H0 LR) as [st|e] eqn:Hrun.
  - exists st. split; [reflexivity|].
    exact (allgather_ledgers_unshared 2 8 h H0 LR st Hrun).
  - vm_compute in Hrun. discriminate Hrun.
Defined.

(** ** Byte counts as text *)








